(** * Resume Reviewer backend ([backend/main.py]): a shallow embedding

    The development follows the source file top to bottom: Python text
    primitives, the JSON-like payload values, the output extractor
    ([extract_json]), the normaliser ([coerce_list], [normalize_section],
    [normalize_response]), the rate limiter ([enforce_rate_limit]), the
    model-invocation loop ([call_gemini_with_retry]) and the request
    handler ([review_resume], [tailor_alias]).

    Conventions.
    - A Python [str] is a list of Unicode code points ([N]).
    - What the interpreter or a library provides and the source merely
      calls (the clock, [json.loads], the provider's [generate_content],
      [str()] on containers) is a [Variable] of the enclosing section.
    - Module-level mutable state ([request_log], [ACTIVE_MODEL_NAME]) is
      passed explicitly. *)

From Stdlib Require Import ZArith NArith QArith Lia Lqa List Bool Ascii String.
From Stdlib Require Import DecimalString Sorted.
From stdpp Require Import base option list gmap.
Import ListNotations.

Local Open Scope N_scope.
Local Open Scope list_scope.

(** ** Python text *)

Abbreviation str := (list N).

(** ASCII literals of the source, as code points. *)
Definition lit (s : string) : str := map N_of_ascii (list_ascii_of_string s).

(** [str.isspace] on one code point; [str.strip()] and the pattern class
    [\s] both use this set. *)
Definition is_space (c : N) : bool :=
  ((0x09 <=? c) && (c <=? 0x0D)) || ((0x1C <=? c) && (c <=? 0x20))
  || (c =? 0x85) || (c =? 0xA0) || (c =? 0x1680)
  || ((0x2000 <=? c) && (c <=? 0x200A))
  || (c =? 0x2028) || (c =? 0x2029) || (c =? 0x202F) || (c =? 0x205F)
  || (c =? 0x3000).

(** Line boundaries of [str.splitlines]. *)
Definition is_linebreak (c : N) : bool :=
  ((0x0A <=? c) && (c <=? 0x0D)) || ((0x1C <=? c) && (c <=? 0x1E))
  || (c =? 0x85) || (c =? 0x2028) || (c =? 0x2029).

(** Truth value of a string or of a list: non-empty. *)
Definition truthy {A} (l : list A) : bool :=
  match l with [] => false | _ :: _ => true end.

Fixpoint lstrip_by (p : N -> bool) (s : str) : str :=
  match s with
  | [] => []
  | c :: rest => if p c then lstrip_by p rest else s
  end.

Definition rstrip_by (p : N -> bool) (s : str) : str :=
  rev (lstrip_by p (rev s)).

Definition strip_by (p : N -> bool) (s : str) : str :=
  rstrip_by p (lstrip_by p s).

(** [s.strip()] *)
Definition strip (s : str) : str := strip_by is_space s.

(** [s.strip(chars)]: [chars] is a set of characters, removed from both
    ends. *)
Definition strip_chars (chars s : str) : str :=
  strip_by (fun c => existsb (N.eqb c) chars) s.

(** [s.splitlines()]: [cur] is the line being read, last character
    first. A carriage return directly followed by a line feed is one
    boundary; a boundary at the very end opens no further line. *)
Fixpoint splitlines_from (cur s : str) : list str :=
  match s with
  | [] => if truthy cur then [rev cur] else []
  | c :: rest =>
      if is_linebreak c then
        rev cur ::
          match rest with
          | c' :: rest' =>
              if (c =? 0x0D) && (c' =? 0x0A)
              then splitlines_from [] rest'
              else splitlines_from [] rest
          | [] => splitlines_from [] rest
          end
      else splitlines_from (c :: cur) rest
  end.

Definition splitlines (s : str) : list str := splitlines_from [] s.

(** [s.startswith(prefix)], returning what follows the prefix. *)
Fixpoint after_prefix (prefix s : str) : option str :=
  match prefix, s with
  | [], _ => Some s
  | p :: prefix', c :: s' => if p =? c then after_prefix prefix' s' else None
  | _ :: _, [] => None
  end.

Definition startswith (prefix s : str) : bool :=
  match after_prefix prefix s with Some _ => true | None => false end.

(** [needle in s] *)
Fixpoint contains (needle s : str) : bool :=
  startswith needle s ||
  match s with
  | [] => false
  | _ :: rest => contains needle rest
  end.

(** ** Regular expressions

    The fragment of Python's [re] the source uses, matched in [re]'s
    backtracking order: a greedy piece takes as much as it can and
    gives back one step at a time while the rest of the pattern
    fails. *)

Inductive charset :=
| Exactly (c : N)
| Whitespace
| Anything.

Definition in_charset (cs : charset) (c : N) : bool :=
  match cs with
  | Exactly x => x =? c
  | Whitespace => is_space c
  | Anything => true
  end.

Inductive piece :=
| Bol
| Eol
| One (cs : charset)
| Star (cs : charset)
| Opt (word : str).

Definition literal (word : str) : list piece :=
  map (fun c => One (Exactly c)) word.

(** Where [$] matches without the multi-line flag: at the end of the
    text and just before a line feed that ends the text. *)
Definition at_end (s : str) : bool :=
  match s with
  | [] => true
  | [c] => c =? 0x0A
  | _ => false
  end.

(** A greedy [cs*] followed by the rest of the pattern, [k]. *)
Fixpoint star (cs : charset) (k : bool -> str -> option str)
    (at_start : bool) (s : str) : option str :=
  match s with
  | c :: rest =>
      if in_charset cs c then
        match star cs k false rest with
        | Some after => Some after
        | None => k at_start s
        end
      else k at_start s
  | [] => k at_start s
  end.

(** Matching [pattern] where [s] begins; [at_start] tells whether that
    is the start of the whole text. The result is what follows the
    match. *)
Fixpoint match_here (pattern : list piece) (at_start : bool) (s : str)
  : option str :=
  match pattern with
  | [] => Some s
  | Bol :: pattern' =>
      if at_start then match_here pattern' at_start s else None
  | Eol :: pattern' =>
      if at_end s then match_here pattern' at_start s else None
  | One cs :: pattern' =>
      match s with
      | c :: rest => if in_charset cs c then match_here pattern' false rest else None
      | [] => None
      end
  | Star cs :: pattern' => star cs (match_here pattern') at_start s
  | Opt word :: pattern' =>
      match after_prefix word s with
      | Some rest =>
          match match_here pattern' (at_start && negb (truthy word)) rest with
          | Some after => Some after
          | None => match_here pattern' at_start s
          end
      | None => match_here pattern' at_start s
      end
  end.

(** The leftmost match, as [match.group(0)]. *)
Fixpoint search_at (pattern : list piece) (at_start : bool) (s : str)
  : option str :=
  match match_here pattern at_start s with
  | Some after => Some (take (length s - length after) s)
  | None =>
      match s with
      | [] => None
      | _ :: rest => search_at pattern false rest
      end
  end.

(** [re.search(pattern, s)] *)
Definition re_search (pattern : list piece) (s : str) : option str :=
  search_at pattern true s.

(** Replacing every match, left to right. [inside] counts the
    characters still covered by the match last replaced. *)
Fixpoint sub_at (pattern : list piece) (repl : str) (at_start : bool)
    (inside : nat) (s : str) : str :=
  match inside with
  | S inside' =>
      match s with
      | _ :: rest => sub_at pattern repl false inside' rest
      | [] => []
      end
  | O =>
      match match_here pattern at_start s with
      | Some after =>
          repl ++
          match s with
          | c :: rest =>
              match (length s - length after)%nat with
              | S inside' => sub_at pattern repl false inside' rest
              | O => c :: sub_at pattern repl false 0 rest
              end
          | [] => []
          end
      | None =>
          match s with
          | c :: rest => c :: sub_at pattern repl false 0 rest
          | [] => []
          end
      end
  end.

(** [re.sub(pattern, repl, s)] *)
Definition re_sub (pattern : list piece) (repl s : str) : str :=
  sub_at pattern repl true 0 s.

(** ** Output extractor *)

Definition FENCE : str := lit "```".
Definition LBRACE : N := 0x7B.
Definition RBRACE : N := 0x7D.

(** [r"^```(?:json)?\s*"] *)
Definition LEADING_FENCE : list piece :=
  Bol :: literal FENCE ++ [Opt (lit "json"); Star Whitespace].

(** [r"\s*```$"] *)
Definition TRAILING_FENCE : list piece :=
  Star Whitespace :: literal FENCE ++ [Eol].

(** [r"\{.*\}"] under [re.DOTALL] *)
Definition BRACE_SPAN : list piece :=
  [One (Exactly LBRACE); Star Anything; One (Exactly RBRACE)].

Definition strip_fences (cleaned : str) : str :=
  if startswith FENCE cleaned
  then re_sub TRAILING_FENCE [] (re_sub LEADING_FENCE [] cleaned)
  else cleaned.

Definition extract_json (text : str) : str :=
  let cleaned := strip_fences (strip text) in
  match re_search BRACE_SPAN cleaned with
  | Some group0 => group0
  | None => cleaned
  end.

Set Warnings "-register-all".

(** ** Payload values

    What [json.loads] can return. The program looks at such a value only
    through [isinstance] (list, str, dict), [dict.get] and [str()]; a
    float is therefore kept as the text [str()] prints for it. A dict is
    its items in order; [dict_lookup] reads the first item with the
    key. *)
Inductive pyval :=
| PNone
| PBool (b : bool)
| PInt (z : Z)
| PFloat (shown : str)
| PStr (s : str)
| PList (items : list pyval)
| PDict (entries : list (str * pyval)).

Fixpoint dict_lookup (key : str) (entries : list (str * pyval)) : option pyval :=
  match entries with
  | [] => None
  | (k, v) :: rest => if decide (k = key) then Some v else dict_lookup key rest
  end.

(** [d.get(key, fallback)] *)
Definition dict_get (key : str) (fallback : pyval) (entries : list (str * pyval)) : pyval :=
  default fallback (dict_lookup key entries).

(** [type(v).__name__] *)
Definition type_name (v : pyval) : str :=
  match v with
  | PNone => lit "NoneType"
  | PBool _ => lit "bool"
  | PInt _ => lit "int"
  | PFloat _ => lit "float"
  | PStr _ => lit "str"
  | PList _ => lit "list"
  | PDict _ => lit "dict"
  end.

(** Exceptions the invocation loop can catch, each with its message. *)
Inductive exn :=
| ValueError (message : str)
| AttributeError (message : str)
| JSONDecodeError (message : str)
| ProviderError (message : str).

(** [str(exc)] *)
Definition exn_message (e : exn) : str :=
  match e with
  | ValueError m | AttributeError m | JSONDecodeError m | ProviderError m => m
  end.

Inductive result (A : Type) :=
| Ok (a : A)
| Raise (e : exn).
Arguments Ok {A} a.
Arguments Raise {A} e.

(** ** Response schema *)

Record SectionFeedback := {
  strengths : list str;
  weaknesses : list str;
  rewrites : list str;
  keywords : list str
}.

Record ReviewResponse := {
  overview : str;
  match_level : str;
  sections : list (str * SectionFeedback);
  top_fixes : list str;
  jd_keywords : list str;
  insertion_guidance : list str;
  missing_info : list str;
  resume_outline : list str
}.

Record ReviewRequest := {
  resume : str;
  job_description : str;
  role_title : str
}.

(** ** Response normaliser *)

Section Normalizer.

(** [str()] of a list or of a dict (their [repr]); no property below
    depends on what it prints. *)
Variable repr_container : pyval -> str.

(** [str(v)] *)
Definition py_str (v : pyval) : str :=
  match v with
  | PStr s => s
  | PNone => lit "None"
  | PBool true => lit "True"
  | PBool false => lit "False"
  | PInt z => lit (NilEmpty.string_of_int (Z.to_int z))
  | PFloat shown => shown
  | PList _ | PDict _ => repr_container v
  end.

Definition coerce_list (value : pyval) : list str :=
  match value with
  | PList items =>
      map (fun item => strip (py_str item))
        (List.filter (fun item => truthy (strip (py_str item))) items)
  | PStr s =>
      map (fun line => strip (strip_chars (lit "- ") line))
        (List.filter (fun line => truthy (strip line)) (splitlines s))
  | _ => []
  end.

(** [payload] is a dict here, given by its items. *)
Definition normalize_section (payload : list (str * pyval)) (key : str) : SectionFeedback :=
  let section :=
    match dict_lookup (lit "sections") payload with
    | Some (PDict secs) => dict_get key (PDict []) secs
    | _ => PDict []
    end in
  let section :=
    match section with
    | PDict items => items
    | _ => []
    end in
  {| strengths := coerce_list (dict_get (lit "strengths") (PList []) section);
     weaknesses := coerce_list (dict_get (lit "weaknesses") (PList []) section);
     rewrites := coerce_list (dict_get (lit "rewrites") (PList []) section);
     keywords := coerce_list (dict_get (lit "keywords") (PList []) section) |}.

Definition MISSING_FIELDS : str := lit "Missing required fields in model output".

(** Calling [.get] on a value that is not a dict. *)
Definition no_get (v : pyval) : exn :=
  AttributeError (lit "'" ++ type_name v ++ lit "' object has no attribute 'get'").

Definition normalize_response (payload : pyval) (require_content : bool)
  : result ReviewResponse :=
  match payload with
  | PDict payload =>
      let overview := strip (py_str (dict_get (lit "overview") (PStr []) payload)) in
      let match_level := strip (py_str (dict_get (lit "match_level") (PStr []) payload)) in
      let top_fixes := coerce_list (dict_get (lit "top_fixes") (PList []) payload) in
      let sections :=
        map (fun key => (key, normalize_section payload key))
          [lit "profile_summary"; lit "experience"; lit "projects";
           lit "skills"; lit "education"] in
      let jd_keywords := coerce_list (dict_get (lit "jd_keywords") (PList []) payload) in
      let insertion_guidance := coerce_list (dict_get (lit "insertion_guidance") (PList []) payload) in
      let missing_info := coerce_list (dict_get (lit "missing_info") (PList []) payload) in
      let resume_outline := coerce_list (dict_get (lit "resume_outline") (PList []) payload) in
      if require_content
         && (negb (truthy overview) || negb (truthy match_level) || negb (truthy top_fixes))
      then Raise (ValueError MISSING_FIELDS)
      else Ok {| overview := overview;
                 match_level := match_level;
                 sections := sections;
                 top_fixes := take 5 top_fixes;
                 jd_keywords := jd_keywords;
                 insertion_guidance := insertion_guidance;
                 missing_info := missing_info;
                 resume_outline := resume_outline |}
  | _ => Raise (no_get payload)
  end.

End Normalizer.

(** ** HTTP outcomes *)

Record HTTPException := {
  status_code : Z;
  detail : str
}.

(** How a handler or a helper called by it ends. *)
Inductive outcome (A : Type) :=
| Returns (a : A)
| HTTPError (e : HTTPException).
Arguments Returns {A} a.
Arguments HTTPError {A} e.

(** ** Rate limiter

    Timestamps are the readings of [time.time()], in seconds, taken as
    rationals; the clock reading of a call is an argument. [request_log]
    maps a client to its queue, oldest reading first. *)

Definition RATE_LIMIT : nat := 30.
Definition RATE_WINDOW_SECONDS : Q := 60.

(** [a > b] on clock readings *)
Definition Qgtb (a b : Q) : bool := negb (Qle_bool a b).

(** [while queue and now - queue[0] > RATE_WINDOW_SECONDS: queue.popleft()] *)
Fixpoint prune (now : Q) (queue : list Q) : list Q :=
  match queue with
  | [] => []
  | oldest :: rest =>
      if Qgtb (now - oldest) RATE_WINDOW_SECONDS then prune now rest else queue
  end.

(** [request_log[client_ip]] on a [defaultdict(deque)] *)
Definition queue_of (client_ip : str) (request_log : gmap str (list Q)) : list Q :=
  default [] (request_log !! client_ip).

Definition RATE_LIMITED : HTTPException :=
  {| status_code := 429; detail := lit "Rate limit exceeded. Try again soon." |}.

(** The queue is changed in place, so the pruning stays when the call is
    rejected. [None] is the normal return. *)
Definition enforce_rate_limit (client_ip : str) (now : Q)
    (request_log : gmap str (list Q)) : option HTTPException * gmap str (list Q) :=
  let queue := prune now (queue_of client_ip request_log) in
  if (RATE_LIMIT <=? length queue)%nat
  then (Some RATE_LIMITED, <[client_ip := queue]> request_log)
  else (None, <[client_ip := queue ++ [now]]> request_log).

(** Successive calls of one client at the given clock readings. *)
Fixpoint serve (client_ip : str) (times : list Q) (request_log : gmap str (list Q))
  : list (option HTTPException) * gmap str (list Q) :=
  match times with
  | [] => ([], request_log)
  | now :: later =>
      let '(r, request_log') := enforce_rate_limit client_ip now request_log in
      let '(rs, request_log'') := serve client_ip later request_log' in
      (r :: rs, request_log'')
  end.

(** ** Model invoker and request handler *)

Definition NO_MODEL_DETAIL : str :=
  lit "No available Gemini model found. Set GEMINI_MODEL in the .env file.".

Definition UNPARSED_DETAIL : str :=
  lit "AI response could not be parsed. Please try again.".

Definition RETRY_SUFFIX : str :=
  lit "

Return ONLY valid JSON with keys overview, match_level, sections, top_fixes, jd_keywords, insertion_guidance, missing_info, resume_outline. Do not wrap in code fences.".

(** ["not found" in message or "not supported" in message] *)
Definition is_unavailable (message : str) : bool :=
  contains (lit "not found") message || contains (lit "not supported") message.

(** The [detail] of the terminal error, from [last_error]. *)
Definition terminal_detail (last_error : option exn) : str :=
  match last_error with
  | Some exc =>
      if is_unavailable (exn_message exc) then NO_MODEL_DETAIL else UNPARSED_DETAIL
  | None => UNPARSED_DETAIL
  end.

(** [x or "Not provided"] *)
Definition or_not_provided (x : str) : str :=
  if truthy x then x else lit "Not provided".

(** The prompt of the branch taken when no resume was sent. *)
Definition outline_prompt (role_title job_description : str) : str :=
  lit "
You are an expert Resume Reviewer for software and tech roles.
The user has only provided a role title and no resume.
Provide a concise outline they can fill in and request missing info.

Role Title: " ++ role_title ++ lit "
Job Description: " ++ or_not_provided job_description ++ lit "

Return JSON ONLY with keys:
overview: 1-2 sentences explaining you need a resume to review.
match_level: Low
sections: include keys profile_summary, experience, projects, skills, education. Each section should have arrays for strengths, weaknesses, rewrites, keywords (empty arrays are OK).
top_fixes: 3-5 bullets on what to gather next.
jd_keywords: 5-10 important keywords if JD provided, else empty array.
insertion_guidance: where to place those keywords if a resume were provided.
missing_info: list of details you need from the user.
resume_outline: bullet outline for a tech resume they can fill in.
".

(** The prompt of the full review. *)
Definition review_prompt (role_title job_description resume_text : str) : str :=
  lit "
You are an expert Resume Reviewer for software and tech roles.
Analyze the resume (and job description if provided) and give clear, practical, prioritized feedback.

Goals:
- Evaluate match to target role.
- Improve clarity, impact, and brevity.
- Optimize for ATS.
- Suggest concrete rewrites (do not invent experience).

Instructions:
- Start with a short overview (1-2 sentences) and match level (Low/Medium/High).
- Then provide section-by-section feedback with headings: Profile / Summary, Experience, Projects, Skills, Education / Certifications.
- For each section: strengths, weaknesses, example rewrites, keywords for ATS.
- If resume is short/junior, suggest projects/coursework to add.
- If JD provided: list top 5-10 skills/keywords and show how to insert them.

Role Title: " ++ or_not_provided role_title ++ lit "
Job Description: " ++ or_not_provided job_description ++ lit "
Resume: " ++ resume_text ++ lit "

Return JSON ONLY with keys:
overview: brief overview (2-3 sentences).
match_level: Low/Medium/High.
sections: object with keys profile_summary, experience, projects, skills, education.
Each section has arrays: strengths, weaknesses, rewrites, keywords.
top_fixes: Top 5 changes to make next, ordered by impact.
jd_keywords: list of keywords from the JD (empty if no JD).
insertion_guidance: bullets showing where/how to insert JD keywords.
missing_info: details to request if resume lacks specifics.
resume_outline: empty array unless resume is missing.
".

Definition BAD_REQUEST : HTTPException :=
  {| status_code := 400; detail := lit "Provide a resume or a target role title." |}.

Section Service.

Variable repr_container : pyval -> str.

(** The provider: [World] is whatever it keeps between calls.
    [generate_content model_name prompt] stands for
    [genai.GenerativeModel(model_name).generate_content(prompt)]
    followed by reading [response.text]; either may raise. *)
Variable World : Type.
Variable generate_content : str -> str -> World -> result (option str) * World.

(** [json.loads] *)
Variable json_loads : str -> result pyval.

(** Fixed when the module is loaded: the configured names, else the
    provider's list, else the built-in defaults. *)
Variable MODEL_CANDIDATES : list str.

(** The module's mutable globals and the provider. *)
Record state := {
  request_log : gmap str (list Q);
  ACTIVE_MODEL_NAME : option str;
  provider : World
}.

Definition set_request_log (l : gmap str (list Q)) (st : state) : state :=
  {| request_log := l;
     ACTIVE_MODEL_NAME := ACTIVE_MODEL_NAME st;
     provider := provider st |}.

Definition set_ACTIVE_MODEL_NAME (m : option str) (st : state) : state :=
  {| request_log := request_log st;
     ACTIVE_MODEL_NAME := m;
     provider := provider st |}.

Definition set_provider (w : World) (st : state) : state :=
  {| request_log := request_log st;
     ACTIVE_MODEL_NAME := ACTIVE_MODEL_NAME st;
     provider := w |}.

(** The body of the [try] for one candidate. *)
Definition try_candidate (model_name prompt : str) (require_content : bool)
    (st : state) : result ReviewResponse * state :=
  let '(reply, w) := generate_content model_name prompt (provider st) in
  let st := set_provider w st in
  match reply with
  | Raise exc => (Raise exc, st)
  | Ok text =>
      let raw_text := default [] text in
      let extracted := extract_json raw_text in
      match json_loads extracted with
      | Raise exc => (Raise exc, st)
      | Ok payload =>
          let st := set_ACTIVE_MODEL_NAME (Some model_name) st in
          (normalize_response repr_container payload require_content, st)
      end
  end.

(** The inner [for model_name in MODEL_CANDIDATES] loop. The handler
    of a failure stores it in [last_error]; its two branches differ in
    the warning they log and both go on with the next candidate. The
    first component is the response when the loop was left by
    [return]. *)
Fixpoint try_candidates (models : list str) (prompt : str) (require_content : bool)
    (last_error : option exn) (st : state)
  : option ReviewResponse * option exn * state :=
  match models with
  | [] => (None, last_error, st)
  | model_name :: rest =>
      match try_candidate model_name prompt require_content st with
      | (Ok response, st') => (Some response, last_error, st')
      | (Raise exc, st') =>
          try_candidates rest prompt require_content (Some exc) st'
      end
  end.

(** The outer loop from one attempt on; [remaining] is
    [retries - attempt]. *)
Fixpoint attempts_from (remaining : nat) (prompt : str) (require_content : bool)
    (last_error : option exn) (st : state) : outcome ReviewResponse * state :=
  match try_candidates MODEL_CANDIDATES prompt require_content last_error st with
  | (Some response, _, st') => (Returns response, st')
  | (None, last_error', st') =>
      match remaining with
      | O =>
          (HTTPError {| status_code := 500;
                        detail := terminal_detail last_error' |}, st')
      | S remaining' =>
          attempts_from remaining' (prompt ++ RETRY_SUFFIX) require_content
            last_error' st'
      end
  end.

(** [retries] is a count; every caller leaves it at its default 2. *)
Definition call_gemini_with_retry (prompt : str) (retries : nat)
    (require_content : bool) (st : state) : outcome ReviewResponse * state :=
  attempts_from retries prompt require_content None st.

(** [POST /review]. [client] is [request.client], given by its host;
    [now] is the clock reading taken by the rate limiter. *)
Definition review_resume (data : ReviewRequest) (client : option str) (now : Q)
    (st : state) : outcome ReviewResponse * state :=
  let client_ip := default (lit "unknown") client in
  match enforce_rate_limit client_ip now (request_log st) with
  | (Some throttled, log') => (HTTPError throttled, set_request_log log' st)
  | (None, log') =>
      let st := set_request_log log' st in
      let resume_text := strip (resume data) in
      let job_description := strip (job_description data) in
      let role_title := strip (role_title data) in
      if negb (truthy resume_text) && negb (truthy role_title)
      then (HTTPError BAD_REQUEST, st)
      else if negb (truthy resume_text)
      then call_gemini_with_retry (outline_prompt role_title job_description)
             2 false st
      else call_gemini_with_retry
             (review_prompt role_title job_description resume_text) 2 true st
  end.

(** [POST /tailor] *)
Definition tailor_alias (data : ReviewRequest) (client : option str) (now : Q)
    (st : state) : outcome ReviewResponse * state :=
  review_resume data client now st.

(** *** History of a run (specification only)

    The exceptions the [except] clause catches, in order: during one
    pass over the candidates, and during a whole call. *)
Fixpoint caught_in_pass (models : list str) (prompt : str) (require_content : bool)
    (st : state) : list exn :=
  match models with
  | [] => []
  | model_name :: rest =>
      match try_candidate model_name prompt require_content st with
      | (Ok _, _) => []
      | (Raise exc, st') => exc :: caught_in_pass rest prompt require_content st'
      end
  end.

Fixpoint caught_from (remaining : nat) (prompt : str) (require_content : bool)
    (st : state) : list exn :=
  caught_in_pass MODEL_CANDIDATES prompt require_content st ++
  match try_candidates MODEL_CANDIDATES prompt require_content None st with
  | (Some _, _, _) => []
  | (None, _, st') =>
      match remaining with
      | O => []
      | S remaining' =>
          caught_from remaining' (prompt ++ RETRY_SUFFIX) require_content st'
      end
  end.

(** What [json.loads] returned in the try of one candidate, when the
    try got that far. *)
Definition parsed_payload (model_name prompt : str) (st : state) : option pyval :=
  match generate_content model_name prompt (provider st) with
  | (Ok text, _) =>
      match json_loads (extract_json (default [] text)) with
      | Ok payload => Some payload
      | Raise _ => None
      end
  | (Raise _, _) => None
  end.

End Service.

Arguments state : clear implicits.
Arguments Build_state {World}.
Arguments request_log {World}.
Arguments ACTIVE_MODEL_NAME {World}.
Arguments provider {World}.
Arguments set_request_log {World}.
Arguments set_ACTIVE_MODEL_NAME {World}.
Arguments set_provider {World}.
Arguments try_candidate repr_container {World}.
Arguments try_candidates repr_container {World}.
Arguments attempts_from repr_container {World}.
Arguments call_gemini_with_retry repr_container {World}.
Arguments review_resume repr_container {World}.
Arguments tailor_alias repr_container {World}.
Arguments caught_in_pass repr_container {World}.
Arguments caught_from repr_container {World}.
Arguments parsed_payload {World}.

(** ** Specification vocabulary *)

(** Only white space, or nothing. *)
Definition blank (s : str) : bool := forallb is_space s.

(** Neither the first nor the last character satisfies [p]. *)
Definition clean_ends (p : N -> bool) (s : str) : bool :=
  match s, rev s with
  | c :: _, d :: _ => negb (p c) && negb (p d)
  | _, _ => true
  end.

(** No white space at either end. *)
Definition trimmed (s : str) : bool := clean_ends is_space s.

(** A hyphen or a space: the characters of the bullet marker. *)
Definition is_bullet_char (c : N) : bool := (c =? 0x2D) || (c =? 0x20).

(** The longest prefix of [s] that ends with [c]. *)
Fixpoint upto_last (c : N) (s : str) : option str :=
  match s with
  | [] => None
  | x :: rest =>
      match upto_last c rest with
      | Some t => Some (x :: t)
      | None => if x =? c then Some [x] else None
      end
  end.

(** From the first opening brace to the last closing brace after it. *)
Fixpoint first_brace_span (s : str) : option str :=
  match s with
  | [] => None
  | c :: rest =>
      if c =? LBRACE then
        match upto_last RBRACE rest with
        | Some t => Some (c :: t)
        | None => None
        end
      else first_brace_span rest
  end.

(** [s] has no opening brace with a closing brace somewhere after it. *)
Definition no_brace_span (s : str) : Prop :=
  forall a b c, s <> a ++ LBRACE :: b ++ RBRACE :: c.

(** An exception that reports an unavailable model. *)
Definition unavailable (exc : exn) : bool := is_unavailable (exn_message exc).

(** The reading [t] lies in the window that trails [now]. *)
Definition in_window (now t : Q) : Prop := (now - t <= RATE_WINDOW_SECONDS)%Q.


(** ** Sample environment

    A provider that answers from a script and keeps the calls made so
    far, and the values of [json.loads] on the texts the samples send
    through it. *)

(** No sample applies [str()] to a list or a dict. *)
Definition repr_elided (v : pyval) : str := lit "...".

Definition DQ : N := 0x22.
Definition quoted (s : str) : str := DQ :: s ++ [DQ].

Definition SAMPLE_JSON : str :=
  lit "{" ++ quoted (lit "overview") ++ lit ": " ++ quoted (lit "Solid resume.")
  ++ lit ", " ++ quoted (lit "match_level") ++ lit ": " ++ quoted (lit "High")
  ++ lit ", " ++ quoted (lit "top_fixes") ++ lit ": ["
  ++ quoted (lit "Add metrics") ++ lit "]}".

Definition SAMPLE_PAYLOAD : pyval :=
  PDict [(lit "overview", PStr (lit "Solid resume."));
         (lit "match_level", PStr (lit "High"));
         (lit "top_fixes", PList [PStr (lit "Add metrics")])].

Definition SAMPLE_FENCED : str :=
  lit "```json
" ++ SAMPLE_JSON ++ lit "
```".

Definition SAMPLE_APOLOGY : str := lit "Sorry, I cannot help with that.".

(** [json.loads] on the empty object, on [SAMPLE_JSON], and on a text
    whose first character starts no JSON value; the samples send it
    nothing else. *)
Definition sample_json_loads (s : str) : result pyval :=
  if decide (s = lit "{}") then Ok (PDict [])
  else if decide (s = SAMPLE_JSON) then Ok SAMPLE_PAYLOAD
  else Raise (JSONDecodeError (lit "Expecting value: line 1 column 1 (char 0)")).

Definition MODEL_A : str := lit "models/model-a".
Definition MODEL_B : str := lit "models/model-b".

Definition NOT_FOUND (model_name : str) : exn :=
  ProviderError (lit "404 " ++ model_name ++ lit " is not found for API version v1beta.").

(** The provider's state is the list of calls it has received. *)
Definition scripted (script : str -> result (option str))
    (model_name prompt : str) (calls : list (str * str))
  : result (option str) * list (str * str) :=
  (script model_name, calls ++ [(model_name, prompt)]).

(** First candidate talks, second candidate sends fenced JSON. *)
Definition script_second_parses (model_name : str) : result (option str) :=
  if decide (model_name = MODEL_A) then Ok (Some SAMPLE_APOLOGY)
  else Ok (Some SAMPLE_FENCED).

(** Every candidate sends the empty object. *)
Definition script_empty_object (model_name : str) : result (option str) :=
  Ok (Some (lit "{}")).

(** First candidate talks, second candidate does not exist. *)
Definition script_talk_then_missing (model_name : str) : result (option str) :=
  if decide (model_name = MODEL_A) then Ok (Some SAMPLE_APOLOGY)
  else Raise (NOT_FOUND model_name).

(** No candidate exists. *)
Definition script_all_missing (model_name : str) : result (option str) :=
  Raise (NOT_FOUND model_name).

Definition sample_state : state (list (str * str)) :=
  {| request_log := ∅; ACTIVE_MODEL_NAME := None; provider := [] |}.


Definition EMPTY_REQUEST : ReviewRequest :=
  {| resume := lit "  "; job_description := lit "Any job."; role_title := [] |}.

Definition CLIENT : option str := Some (lit "203.0.113.7").

(** Thirty readings one second apart. *)
Definition THIRTY_SECONDS : list Q :=
  map (fun k => inject_Z (Z.of_nat k)) (seq 1 30).

(** ** Candidate list at start-up, health and catalogue endpoints *)

Definition COMMA : N := 0x2C.

(** [s.split(sep)] for a separator of one character; [cur] is the item
    being read, last character first. *)
Fixpoint split_from (sep : N) (cur s : str) : list str :=
  match s with
  | [] => [rev cur]
  | c :: rest =>
      if c =? sep then rev cur :: split_from sep [] rest
      else split_from sep (c :: cur) rest
  end.

Definition split_on (sep : N) (s : str) : list str := split_from sep [] s.

Definition DEFAULT_MODELS : list str :=
  [lit "models/gemini-1.5-flash-latest";
   lit "models/gemini-1.5-flash";
   lit "models/gemini-1.5-pro-latest";
   lit "gemini-1.5-flash-latest";
   lit "gemini-1.5-flash";
   lit "gemini-1.5-pro-latest"].

(** [GEMINI_MODEL] is the variable of the environment, when it is set. *)
Definition ENV_MODELS (GEMINI_MODEL : option str) : list str :=
  map strip
    (List.filter (fun item => truthy (strip item))
       (split_on COMMA (default [] GEMINI_MODEL))).

(** An entry of the provider's catalogue. *)
Record Model := {
  name : str;
  supported_generation_methods : list str
}.

(** [listing] is what [genai.list_models()] gives, or the exception it
    or the walk over it raises. *)
Definition fetch_available_models (listing : result (list Model)) : list str :=
  match listing with
  | Ok models =>
      map name
        (List.filter
           (fun model =>
              existsb (fun method => bool_decide (method = lit "generateContent"))
                (supported_generation_methods model))
           models)
  | Raise _ => []
  end.

(** [MODEL_CANDIDATES = ENV_MODELS or fetch_available_models() or DEFAULT_MODELS] *)
Definition load_model_candidates (GEMINI_MODEL : option str)
    (listing : result (list Model)) : list str :=
  if truthy (ENV_MODELS GEMINI_MODEL) then ENV_MODELS GEMINI_MODEL
  else if truthy (fetch_available_models listing) then fetch_available_models listing
  else DEFAULT_MODELS.

Record Health := {
  status : str;
  model : str;
  candidates : list str
}.

(** [GET /health]; [None] stands for the [IndexError] of
    [MODEL_CANDIDATES[0]] on an empty list. *)
Definition health_check {World} (MODEL_CANDIDATES : list str) (st : state World)
  : option Health :=
  let report m :=
    {| status := lit "healthy"; model := m; candidates := MODEL_CANDIDATES |} in
  match ACTIVE_MODEL_NAME st with
  | Some active =>
      if truthy active then Some (report active)
      else option_map report (hd_error MODEL_CANDIDATES)
  | None => option_map report (hd_error MODEL_CANDIDATES)
  end.

(** [GET /models] *)
Definition list_models (MODEL_CANDIDATES : list str) (listing : result (list Model))
  : list str :=
  if truthy (fetch_available_models listing) then fetch_available_models listing
  else MODEL_CANDIDATES.

(** ** Further specification vocabulary *)

(** [sep.join(items)] *)
Fixpoint join_with (sep : N) (items : list str) : str :=
  match items with
  | [] => []
  | [item] => item
  | item :: rest => item ++ sep :: join_with sep rest
  end.

(** The marker is unset or names one of the candidates. *)
Definition marker_ok {World} (candidates : list str) (st : state World) : Prop :=
  match ACTIVE_MODEL_NAME st with
  | Some active => In active candidates
  | None => True
  end.


(** How many calls of a run were admitted. *)
Definition admitted (results : list (option HTTPException)) : nat :=
  length (List.filter (fun r => match r with None => true | Some _ => false end) results).

(** A provider that also keeps the calls it receives. *)
Definition recording {World}
    (generate_content : str -> str -> World -> result (option str) * World)
    (model_name prompt : str) (traced : World * list (str * str))
  : result (option str) * (World * list (str * str)) :=
  let '(reply, w) := generate_content model_name prompt traced.1 in
  (reply, (w, traced.2 ++ [(model_name, prompt)])).

(** The state [st] with [calls] beside its provider. *)
Definition with_calls {World} (calls : list (str * str)) (st : state World)
  : state (World * list (str * str)) :=
  {| request_log := request_log st;
     ACTIVE_MODEL_NAME := ACTIVE_MODEL_NAME st;
     provider := (provider st, calls) |}.

(** Every try of a call that never succeeds, in order: one pass over
    the candidates for each attempt, the prompt growing by the retry
    suffix from one attempt to the next. *)
Fixpoint schedule (candidates : list str) (remaining : nat) (prompt : str)
  : list (str * str) :=
  map (fun model_name => (model_name, prompt)) candidates ++
  match remaining with
  | O => []
  | S remaining' => schedule candidates remaining' (prompt ++ RETRY_SUFFIX)
  end.

(** The content a full review must carry. *)
Definition has_content (response : ReviewResponse) : Prop :=
  overview response <> [] /\ match_level response <> []
  /\ (1 <= length (top_fixes response) <= 5)%nat.

(** The keys [normalize_response] reads. *)
Definition KNOWN_KEYS : list str :=
  [lit "overview"; lit "match_level"; lit "top_fixes"; lit "sections";
   lit "jd_keywords"; lit "insertion_guidance"; lit "missing_info";
   lit "resume_outline"].

Definition NO_FEEDBACK : SectionFeedback :=
  {| strengths := []; weaknesses := []; rewrites := []; keywords := [] |}.

(** ** Further samples *)

Definition FULL_REQUEST : ReviewRequest :=
  {| resume := lit "Built payment APIs in Go.";
     job_description := [];
     role_title := lit "Backend Engineer" |}.

Definition SAMPLE_CATALOGUE : list Model :=
  [{| name := lit "models/embedding-001";
      supported_generation_methods := [lit "embedContent"] |};
   {| name := lit "models/gemini-pro";
      supported_generation_methods := [lit "generateContent"; lit "countTokens"] |}].

(** The sample client has thirty readings in its queue. *)
Definition BUSY_STATE : state (list (str * str)) :=
  {| request_log := <[lit "203.0.113.7" := THIRTY_SECONDS]> ∅;
     ACTIVE_MODEL_NAME := None;
     provider := [] |}.

(** * Properties *)

(** ** The primitives on sample texts *)

Example splitlines_sample :
  splitlines (lit "a" ++ [0x0D; 0x0A] ++ lit "b" ++ [0x0A; 0x0A] ++ lit "c" ++ [0x0A])
  = [lit "a"; lit "b"; []; lit "c"].
Proof. reflexivity. Qed.

Example strip_sample : strip ([0x09; 0x20] ++ lit "a b" ++ [0xA0; 0x0A]) = lit "a b".
Proof. reflexivity. Qed.

Example strip_chars_sample : strip_chars (lit "- ") (lit "- - well-known - ") = lit "well-known".
Proof. reflexivity. Qed.

Example py_str_sample :
  map (py_str repr_elided) [PNone; PBool true; PInt (-12); PInt 0; PStr (lit "x")]
  = [lit "None"; lit "True"; lit "-12"; lit "0"; lit "x"].
Proof. reflexivity. Qed.

Example re_sub_leading_sample :
  re_sub LEADING_FENCE [] (lit "```json  {}```") = lit "{}```"
  /\ re_sub LEADING_FENCE [] (lit "x ```json") = lit "x ```json".
Proof. split; reflexivity. Qed.

Example re_sub_trailing_sample :
  re_sub TRAILING_FENCE [] (lit "{} ``` ```") = lit "{} ```"
  /\ re_sub TRAILING_FENCE [] (lit "{}```" ++ [0x0A]) = lit "{}" ++ [0x0A]
  /\ re_sub TRAILING_FENCE [] (lit "{}``` .") = lit "{}``` .".
Proof. repeat split; reflexivity. Qed.

Example re_search_sample :
  re_search BRACE_SPAN (lit "a}b{c}d{e}f{g") = Some (lit "{c}d{e}")
  /\ re_search BRACE_SPAN (lit "} {") = None.
Proof. split; reflexivity. Qed.

Example is_unavailable_sample :
  is_unavailable (lit "404 models/x is not found for API version v1beta.") = true
  /\ is_unavailable (lit "Expecting value: line 1 column 1 (char 0)") = false
  /\ is_unavailable MISSING_FIELDS = false.
Proof. repeat split; reflexivity. Qed.

(** ** Text primitives *)

Section StripFacts.

Variable p : N -> bool.

Lemma lstrip_by_app_all (a s : str) :
  forallb p a = true -> lstrip_by p (a ++ s) = lstrip_by p s.
Proof.
  induction a as [|c a IH]; simpl; [reflexivity|].
  intros H. apply andb_true_iff in H as [Hc Ha]. rewrite Hc. auto.
Qed.

Lemma lstrip_by_all (a : str) : forallb p a = true -> lstrip_by p a = [].
Proof.
  intros H. rewrite <- (app_nil_r a). rewrite lstrip_by_app_all by exact H.
  reflexivity.
Qed.

Lemma lstrip_by_nil_inv (s : str) : lstrip_by p s = [] -> forallb p s = true.
Proof.
  induction s as [|c s IH]; simpl; [reflexivity|].
  destruct (p c); simpl; [exact IH | discriminate].
Qed.

Lemma lstrip_by_head (s : str) (c : N) (r : str) :
  lstrip_by p s = c :: r -> p c = false.
Proof.
  induction s as [|x s IH]; simpl; [discriminate|].
  destruct (p x) eqn:Hx; [exact IH|].
  intros [= <- _]. exact Hx.
Qed.

Lemma lstrip_by_snoc_keep (l : str) (c : N) :
  p c = false -> lstrip_by p (l ++ [c]) = lstrip_by p l ++ [c].
Proof.
  intros Hc. induction l as [|x l IH]; simpl.
  - rewrite Hc. reflexivity.
  - destruct (p x); [exact IH | reflexivity].
Qed.

Lemma rstrip_by_app_all (s b : str) :
  forallb p b = true -> rstrip_by p (s ++ b) = rstrip_by p s.
Proof.
  intros H. unfold rstrip_by. rewrite rev_app_distr.
  rewrite lstrip_by_app_all; [reflexivity|].
  rewrite forallb_forall in *. intros x Hx. apply H. now apply in_rev.
Qed.

Lemma rstrip_by_snoc_stop (s : str) (d : N) :
  p d = false -> rstrip_by p (s ++ [d]) = s ++ [d].
Proof.
  intros Hd. unfold rstrip_by. rewrite rev_app_distr. simpl. rewrite Hd.
  change (rev (d :: rev s) = s ++ [d]). simpl. now rewrite rev_involutive.
Qed.

Lemma rstrip_by_cons_keep (c : N) (r : str) :
  p c = false -> rstrip_by p (c :: r) = c :: rstrip_by p r.
Proof.
  intros Hc. unfold rstrip_by. simpl rev at 2.
  rewrite lstrip_by_snoc_keep by exact Hc.
  rewrite rev_app_distr. reflexivity.
Qed.

(** White space (or whatever [p] selects) around a text with clean
    ends is exactly what [strip_by] removes. *)
Lemma strip_by_core (a x b : str) :
  forallb p a = true -> forallb p b = true -> clean_ends p x = true ->
  strip_by p (a ++ x ++ b) = x.
Proof.
  intros Ha Hb Hx. unfold strip_by. rewrite lstrip_by_app_all by exact Ha.
  destruct x as [|c m].
  - simpl. rewrite lstrip_by_all by exact Hb. reflexivity.
  - unfold clean_ends in Hx. destruct (rev (c :: m)) as [|d m'] eqn:Hrev.
    + apply (f_equal (@length N)) in Hrev. rewrite length_rev in Hrev.
      discriminate.
    + apply andb_true_iff in Hx as [Hc Hd].
      apply negb_true_iff in Hc, Hd.
      change ((c :: m) ++ b) with (c :: (m ++ b)).
      simpl lstrip_by. rewrite Hc.
      change (c :: m ++ b) with ((c :: m) ++ b).
      rewrite rstrip_by_app_all by exact Hb.
      apply (f_equal (@rev N)) in Hrev. rewrite rev_involutive in Hrev.
      rewrite Hrev. simpl. apply rstrip_by_snoc_stop. exact Hd.
Qed.

Lemma strip_by_clean (x : str) : clean_ends p x = true -> strip_by p x = x.
Proof.
  intros H. rewrite <- (strip_by_core [] x []) at 2 by (auto; reflexivity).
  now rewrite app_nil_r.
Qed.

Lemma strip_by_is_clean (s : str) : clean_ends p (strip_by p s) = true.
Proof.
  unfold strip_by. destruct (lstrip_by p s) as [|c r] eqn:Hl; [reflexivity|].
  pose proof (lstrip_by_head _ _ _ Hl) as Hc.
  rewrite rstrip_by_cons_keep by exact Hc.
  unfold clean_ends. simpl rev.
  unfold rstrip_by. rewrite rev_involutive.
  destruct (lstrip_by p (rev r)) as [|d r'] eqn:Hr; simpl.
  - now rewrite Hc.
  - rewrite Hc. apply lstrip_by_head in Hr. now rewrite Hr.
Qed.

Lemma strip_by_idempotent (s : str) : strip_by p (strip_by p s) = strip_by p s.
Proof. apply strip_by_clean, strip_by_is_clean. Qed.

Lemma strip_by_nil_iff (s : str) : strip_by p s = [] <-> forallb p s = true.
Proof.
  unfold strip_by. split.
  - intros H. apply lstrip_by_nil_inv.
    destruct (lstrip_by p s) as [|c r] eqn:Hl; [reflexivity|].
    rewrite rstrip_by_cons_keep in H by exact (lstrip_by_head _ _ _ Hl).
    discriminate.
  - intros H. rewrite lstrip_by_all by exact H. reflexivity.
Qed.

Lemma lstrip_by_suffix (s : str) : exists gone, s = gone ++ lstrip_by p s.
Proof.
  induction s as [|c s [gone IH]]; [now exists []|].
  simpl. destruct (p c).
  - exists (c :: gone). simpl. now f_equal.
  - now exists [].
Qed.



Lemma lstrip_by_forallb (q : N -> bool) (s : str) :
  forallb q s = true -> forallb q (lstrip_by p s) = true.
Proof.
  induction s as [|x s IH]; simpl; [reflexivity|].
  intros H. destruct (p x); [|exact H].
  apply andb_true_iff in H as [_ H]. auto.
Qed.

(** What is left after stripping is part of the text. *)
Lemma strip_by_forallb (q : N -> bool) (s : str) :
  forallb q s = true -> forallb q (strip_by p s) = true.
Proof.
  intros H. unfold strip_by, rstrip_by.
  assert (Hrev : forall l, forallb q l = true -> forallb q (rev l) = true).
  { intros l Hl. rewrite forallb_forall in *. intros x Hx. apply Hl.
    now apply in_rev. }
  apply Hrev, lstrip_by_forallb, Hrev, lstrip_by_forallb, H.
Qed.

End StripFacts.

Lemma truthy_strip (s : str) : truthy (strip s) = negb (blank s).
Proof.
  unfold strip, blank. destruct (forallb is_space s) eqn:H.
  - apply strip_by_nil_iff in H. now rewrite H.
  - destruct (strip_by is_space s) eqn:Hs; [|reflexivity].
    apply strip_by_nil_iff in Hs. congruence.
Qed.

Lemma truthy_true {A} (l : list A) : truthy l = true <-> l <> [].
Proof. destruct l; simpl; split; congruence. Qed.

Lemma strip_trimmed (s : str) : trimmed (strip s) = true.
Proof. apply strip_by_is_clean. Qed.

Lemma strip_of_trimmed (s : str) : trimmed s = true -> strip s = s.
Proof. apply strip_by_clean. Qed.

Lemma lstrip_by_ext (p q : N -> bool) (s : str) :
  (forall c, p c = q c) -> lstrip_by p s = lstrip_by q s.
Proof.
  intros E. induction s as [|c s IH]; simpl; [reflexivity|].
  rewrite <- E. destruct (p c); [exact IH | reflexivity].
Qed.

Lemma strip_by_ext (p q : N -> bool) (s : str) :
  (forall c, p c = q c) -> strip_by p s = strip_by q s.
Proof.
  intros E. unfold strip_by, rstrip_by.
  rewrite (lstrip_by_ext p q s E).
  now rewrite (lstrip_by_ext p q (rev (lstrip_by q s)) E).
Qed.

Lemma strip_chars_bullet (line : str) :
  strip_chars (lit "- ") line = strip_by is_bullet_char line.
Proof.
  apply strip_by_ext. intros c. unfold is_bullet_char. simpl.
  now rewrite orb_false_r.
Qed.

(** A line of [splitlines] holds no line boundary. *)
Lemma splitlines_from_no_break (s cur : str) :
  forallb (fun c => negb (is_linebreak c)) cur = true ->
  Forall (fun line => forallb (fun c => negb (is_linebreak c)) line = true)
    (splitlines_from cur s).
Proof.
  revert cur. induction s as [s IH] using (induction_ltof1 _ (@length N)).
  unfold ltof in IH. intros cur Hcur.
  assert (Hrev : forallb (fun c => negb (is_linebreak c)) (rev cur) = true).
  { rewrite forallb_forall in *. intros x Hx. apply Hcur. now apply in_rev. }
  destruct s as [|c rest]; simpl.
  - destruct (truthy cur); constructor; auto.
  - destruct (is_linebreak c) eqn:Hc.
    + constructor; [exact Hrev|].
      destruct rest as [|c' rest'].
      * simpl. constructor.
      * destruct ((c =? 13) && (c' =? 10)).
        -- apply IH; [simpl; lia | reflexivity].
        -- apply IH; [simpl; lia | reflexivity].
    + apply IH; [simpl; lia|]. simpl. now rewrite Hc.
Qed.

Section NormalizerFacts.

Variable repr_container : pyval -> str.

Local Abbreviation py_str := (py_str repr_container).
Local Abbreviation coerce_list := (coerce_list repr_container).
Local Abbreviation normalize_response := (normalize_response repr_container).

Lemma filter_map_swap {A B} (f : A -> B) (q : B -> bool) (l : list A) :
  map f (List.filter (fun x => q (f x)) l) = List.filter q (map f l).
Proof.
  induction l as [|x l IH]; simpl; [reflexivity|].
  destruct (q (f x)); simpl; now rewrite IH.
Qed.

Lemma coerce_list_of_list (items : list pyval) :
  coerce_list (PList items)
  = List.filter truthy (map (fun item => strip (py_str item)) items).
Proof. apply (filter_map_swap (fun item => strip (py_str item)) truthy). Qed.

Lemma coerce_list_of_list_shape (items : list pyval) :
  Forall (fun s => s <> [] /\ trimmed s = true) (coerce_list (PList items)).
Proof.
  rewrite coerce_list_of_list. apply List.Forall_forall. intros s Hs.
  apply filter_In in Hs as [Hin Ht]. split.
  - now apply truthy_true.
  - apply in_map_iff in Hin as [item [<- _]]. apply strip_trimmed.
Qed.

(** A list of non-empty trimmed strings is left as it is. *)
Lemma coerce_list_fixes (l : list str) :
  Forall (fun s => s <> [] /\ trimmed s = true) l ->
  coerce_list (PList (map PStr l)) = l.
Proof.
  induction 1 as [|s l [Hne Htr] _ IH]; [reflexivity|].
  simpl in *. rewrite (strip_of_trimmed s Htr).
  apply truthy_true in Hne. rewrite Hne. simpl.
  rewrite (strip_of_trimmed s Htr). now f_equal.
Qed.




Lemma coerce_list_of_str (s : str) :
  coerce_list (PStr s)
  = map (fun line => strip (strip_by is_bullet_char line))
      (List.filter (fun line => negb (blank line)) (splitlines s)).
Proof.
  simpl. rewrite (filter_ext _ (fun line => negb (blank line)))
    by (intros line; apply truthy_strip).
  apply map_ext. intros line. now rewrite strip_chars_bullet.
Qed.



(** C7. Coercing a list of non-empty trimmed strings returns it
    unchanged; hence coercing the coerced form of any list changes
    nothing. *)
Theorem coerce_list_idempotent (l : list str) (items : list pyval) :
  Forall (fun s => s <> [] /\ trimmed s = true) l ->
  coerce_list (PList (map PStr l)) = l
  /\ coerce_list (PList (map PStr (coerce_list (PList items))))
     = coerce_list (PList items).
Proof.
  intros Hl. split.
  - apply coerce_list_fixes, Hl.
  - apply coerce_list_fixes, coerce_list_of_list_shape.
Qed.

(** C4. On a mapping, [normalize_response] raises its validation error
    exactly when content is required and one of [overview],
    [match_level], [top_fixes] is empty after coercion; it raises
    nothing else, and with [require_content] false it returns a
    response. *)
Theorem normalize_response_validation (payload : list (str * pyval))
    (require_content : bool) :
  let overview := strip (py_str (dict_get (lit "overview") (PStr []) payload)) in
  let match_level := strip (py_str (dict_get (lit "match_level") (PStr []) payload)) in
  let top_fixes := coerce_list (dict_get (lit "top_fixes") (PList []) payload) in
  (normalize_response (PDict payload) require_content = Raise (ValueError MISSING_FIELDS)
   <-> require_content = true
       /\ (overview = [] \/ match_level = [] \/ top_fixes = []))
  /\ (normalize_response (PDict payload) require_content = Raise (ValueError MISSING_FIELDS)
      \/ exists response, normalize_response (PDict payload) require_content = Ok response)
  /\ exists response, normalize_response (PDict payload) false = Ok response.
Proof.
  intros overview match_level top_fixes. unfold normalize_response.
  fold overview match_level top_fixes.
  destruct require_content; simpl.
  - destruct overview as [|c ov]; simpl.
    { split; [|split; eauto]. split; auto. }
    destruct match_level as [|c' ml]; simpl.
    { split; [|split; eauto]. split; auto. }
    destruct top_fixes as [|f tf]; simpl.
    { split; [|split; eauto]. split; auto. }
    split; [|split; eauto].
    split; [discriminate|]. intros [_ [H | [H | H]]]; discriminate.
  - split; [|split; eauto].
    split; [discriminate|]. intros [H _]. discriminate.
Qed.

End NormalizerFacts.

Lemma coerce_list_idempotent_witness :
  coerce_list repr_elided (PList (map PStr [lit "Add metrics"; lit "Go"]))
  = [lit "Add metrics"; lit "Go"]
  /\ coerce_list repr_elided
       (PList (map PStr (coerce_list repr_elided
          (PList [PStr (lit " Add metrics "); PNone; PStr (lit "  "); PInt 7]))))
     = coerce_list repr_elided
         (PList [PStr (lit " Add metrics "); PNone; PStr (lit "  "); PInt 7]).
Proof.
  apply (coerce_list_idempotent repr_elided).
  repeat (constructor; [split; [discriminate | reflexivity] |]).
  constructor.
Defined.


(** ** Regular expressions and the output extractor *)












Lemma upto_last_none (c : N) (s : str) : upto_last c s = None <-> ~ In c s.
Proof.
  induction s as [|x s IH]; simpl; [tauto|].
  destruct (upto_last c s) as [t|].
  - split; [discriminate|]. intros H. exfalso. apply H. right.
    destruct (in_dec N.eq_dec c s) as [Hin|Hin]; [exact Hin|].
    apply IH in Hin. discriminate.
  - destruct (N.eqb_spec x c) as [->|Hne].
    + split; [discriminate|]. intros H. exfalso. apply H. now left.
    + split; [|reflexivity]. intros _ [Hx|Hin]; [contradiction|].
      now apply IH in Hin.
Qed.

Lemma upto_last_some (c : N) (s t : str) :
  upto_last c s = Some t ->
  exists b r, s = b ++ c :: r /\ t = b ++ [c] /\ ~ In c r.
Proof.
  revert t. induction s as [|x s IH]; simpl; [discriminate|].
  intros t. destruct (upto_last c s) as [t'|] eqn:Hs.
  - intros [= <-]. destruct (IH t' eq_refl) as (b & r & -> & -> & Hr).
    exists (x :: b), r. auto.
  - destruct (N.eqb_spec x c) as [->|_]; [|discriminate].
    intros [= <-]. exists [], s. repeat split. now apply upto_last_none.
Qed.

Lemma upto_last_snoc (c : N) (s : str) : upto_last c (s ++ [c]) = Some (s ++ [c]).
Proof.
  induction s as [|x s IH]; simpl.
  - now rewrite N.eqb_refl.
  - now rewrite IH.
Qed.

Lemma upto_last_prefix (c : N) (s t : str) :
  upto_last c s = Some t -> take (length t) s = t /\ (length t <= length s)%nat.
Proof.
  intros H. apply upto_last_some in H as (b & r & -> & -> & _).
  rewrite !length_app. simpl. split; [|lia].
  replace (b ++ c :: r) with ((b ++ [c]) ++ r) by now rewrite <- app_assoc.
  rewrite take_app_length'; [reflexivity|]. rewrite length_app. simpl. lia.
Qed.

(** The greedy [.*] before the closing brace runs to the last closing
    brace. *)
Lemma star_to_last_brace (at_start : bool) (s : str) :
  star Anything (match_here [One (Exactly RBRACE)]) at_start s
  = match upto_last RBRACE s with
    | Some t => Some (drop (length t) s)
    | None => None
    end.
Proof.
  revert at_start. induction s as [|c s IH]; intros at_start; [reflexivity|].
  cbn [star in_charset upto_last]. rewrite IH.
  destruct (upto_last RBRACE s) as [t|]; [reflexivity|].
  cbn [match_here in_charset]. rewrite (N.eqb_sym RBRACE c).
  destruct (c =? RBRACE); reflexivity.
Qed.

Lemma search_at_no_closing_brace (at_start : bool) (s : str) :
  ~ In RBRACE s -> search_at BRACE_SPAN at_start s = None.
Proof.
  revert at_start. induction s as [|c s IH]; intros at_start Hno; [reflexivity|].
  assert (Hs : ~ In RBRACE s) by (intros H; apply Hno; now right).
  cbn [search_at BRACE_SPAN match_here in_charset].
  rewrite star_to_last_brace.
  apply upto_last_none in Hs as Hu. rewrite Hu.
  destruct (LBRACE =? c); now apply IH.
Qed.

(** The search for a brace span finds the span from the first opening
    brace to the last closing brace. *)
Lemma search_at_brace_span (at_start : bool) (s : str) :
  search_at BRACE_SPAN at_start s = first_brace_span s.
Proof.
  revert at_start. induction s as [|c s IH]; intros at_start; [reflexivity|].
  cbn [search_at BRACE_SPAN match_here in_charset first_brace_span].
  rewrite star_to_last_brace, (N.eqb_sym LBRACE c).
  destruct (c =? LBRACE).
  - destruct (upto_last RBRACE s) as [t|] eqn:Hu.
    + apply upto_last_prefix in Hu as [Htake Hlen].
      rewrite length_drop. cbn [length].
      replace (S (length s) - (length s - length t))%nat with (S (length t)) by lia.
      cbn [take]. now rewrite Htake.
    + apply search_at_no_closing_brace. now apply upto_last_none.
  - apply IH.
Qed.

Lemma re_search_brace_span (s : str) : re_search BRACE_SPAN s = first_brace_span s.
Proof. apply search_at_brace_span. Qed.

(** The span found starts at the first opening brace and ends at the
    last closing brace. *)
Lemma first_brace_span_greedy (s m : str) :
  first_brace_span s = Some m ->
  exists a b r,
    s = a ++ m ++ r /\ m = LBRACE :: b ++ [RBRACE]
    /\ ~ In LBRACE a /\ ~ In RBRACE r.
Proof.
  revert m. induction s as [|x s IH]; simpl; [discriminate|].
  intros m. destruct (N.eqb_spec x LBRACE) as [->|Hne].
  - destruct (upto_last RBRACE s) as [t|] eqn:Ht; [|discriminate].
    intros [= <-]. apply upto_last_some in Ht as (b & r & -> & -> & Hr).
    exists [], b, r. simpl. rewrite <- app_assoc. auto.
  - intros H. destruct (IH m H) as (a & b & r & -> & -> & Ha & Hr).
    exists (x :: a), b, r. repeat split; auto.
    intros [E|Hin]; [now apply Hne | now apply Ha].
Qed.

Lemma first_brace_span_none (s : str) : first_brace_span s = None <-> no_brace_span s.
Proof.
  split.
  - induction s as [|x s IH]; simpl; intros H a b c E.
    + destruct a; discriminate.
    + destruct (N.eqb_spec x LBRACE) as [->|Hne].
      * destruct (upto_last RBRACE s) eqn:Hu; [discriminate|].
        apply upto_last_none in Hu. apply Hu.
        destruct a as [|y a]; apply (f_equal (@tl N)) in E; simpl in E;
          rewrite E.
        -- apply in_app_iff. right. now left.
        -- apply in_app_iff. right. right. apply in_app_iff. right. now left.
      * destruct a as [|y a].
        -- apply (f_equal (hd 0)) in E. now apply Hne.
        -- apply (f_equal (@tl N)) in E. now apply (IH H a b c).
  - intros H. destruct (first_brace_span s) as [m|] eqn:Hs; [|reflexivity].
    apply first_brace_span_greedy in Hs as (a & b & r & -> & -> & _).
    exfalso. apply (H a b r). simpl. now rewrite <- app_assoc.
Qed.

Lemma first_brace_span_object (body : str) :
  first_brace_span (LBRACE :: body ++ [RBRACE]) = Some (LBRACE :: body ++ [RBRACE]).
Proof. simpl. now rewrite upto_last_snoc. Qed.






Lemma clean_ends_shape (p : N -> bool) (c d : N) (m : str) :
  p c = false -> p d = false -> clean_ends p (c :: m ++ [d]) = true.
Proof.
  intros Hc Hd. unfold clean_ends.
  replace (rev (c :: m ++ [d])) with (d :: rev m ++ [c])
    by (simpl; now rewrite rev_app_distr).
  now rewrite Hc, Hd.
Qed.





(** ** Rate limiter *)


Lemma Qgtb_in_window (now t : Q) :
  Qgtb (now - t) RATE_WINDOW_SECONDS = false <-> in_window now t.
Proof.
  unfold Qgtb, in_window. rewrite negb_false_iff. apply Qle_bool_iff.
Qed.

Lemma prune_in_window (now oldest : Q) (rest : list Q) :
  in_window now oldest -> prune now (oldest :: rest) = oldest :: rest.
Proof. intros H. apply Qgtb_in_window in H. simpl. now rewrite H. Qed.



Lemma prune_length (now : Q) (queue : list Q) :
  (length (prune now queue) <= length queue)%nat.
Proof.
  induction queue as [|t queue IH]; simpl; [lia|].
  destruct (Qgtb (now - t) RATE_WINDOW_SECONDS); simpl; lia.
Qed.

Lemma queue_of_insert (client_ip : str) (queue : list Q)
    (request_log : gmap str (list Q)) :
  queue_of client_ip (<[client_ip := queue]> request_log) = queue.
Proof. unfold queue_of. now rewrite lookup_insert_eq. Qed.

Lemma enforce_admits (client_ip : str) (now : Q) (request_log : gmap str (list Q)) :
  (length (prune now (queue_of client_ip request_log)) < RATE_LIMIT)%nat ->
  enforce_rate_limit client_ip now request_log
  = (None, <[client_ip := prune now (queue_of client_ip request_log) ++ [now]]> request_log).
Proof.
  intros H. unfold enforce_rate_limit.
  destruct (Nat.leb_spec RATE_LIMIT (length (prune now (queue_of client_ip request_log))));
    [lia | reflexivity].
Qed.


(** An admitted call records its reading behind the readings still in
    the queue. *)
Lemma enforce_records (client_ip : str) (now : Q)
    (request_log request_log' : gmap str (list Q)) :
  enforce_rate_limit client_ip now request_log = (None, request_log') ->
  queue_of client_ip request_log'
  = prune now (queue_of client_ip request_log) ++ [now].
Proof.
  unfold enforce_rate_limit.
  destruct (RATE_LIMIT <=? _)%nat; [discriminate|].
  intros [= <-]. apply queue_of_insert.
Qed.



(** While the queue has room for them, calls are admitted whatever
    their readings are. *)
Lemma serve_with_room (client_ip : str) (times : list Q)
    (request_log : gmap str (list Q)) :
  (length (queue_of client_ip request_log) + length times <= RATE_LIMIT)%nat ->
  (serve client_ip times request_log).1 = repeat None (length times).
Proof.
  revert request_log.
  induction times as [|now later IH]; intros request_log Hroom; simpl; [reflexivity|].
  pose proof (prune_length now (queue_of client_ip request_log)) as Hp.
  simpl in Hroom.
  rewrite enforce_admits by lia.
  specialize (IH (<[client_ip := prune now (queue_of client_ip request_log) ++ [now]]> request_log)).
  rewrite queue_of_insert, length_app in IH. simpl in IH.
  specialize (IH ltac:(lia)).
  destruct (serve client_ip later _) as [rs log'']. simpl in *. now f_equal.
Qed.




(** ** Model invoker *)

Section InvokerFacts.

Variable repr_container : pyval -> str.
Variable World : Type.
Variable generate_content : str -> str -> World -> result (option str) * World.
Variable json_loads : str -> result pyval.

Local Abbreviation try_candidate :=
  (try_candidate repr_container generate_content json_loads).
Local Abbreviation try_candidates :=
  (try_candidates repr_container generate_content json_loads).
Local Abbreviation attempts_from :=
  (attempts_from repr_container generate_content json_loads).
Local Abbreviation call_gemini_with_retry :=
  (call_gemini_with_retry repr_container generate_content json_loads).
Local Abbreviation caught_in_pass :=
  (caught_in_pass repr_container generate_content json_loads).
Local Abbreviation caught_from :=
  (caught_from repr_container generate_content json_loads).
Local Abbreviation parsed_payload := (parsed_payload generate_content json_loads).

(** One try leaves the rate-limit log alone and moves the provider by
    one call. *)
Lemma try_candidate_frame (model_name prompt : str) (require_content : bool)
    (st : state World) :
  request_log (try_candidate model_name prompt require_content st).2
  = request_log st
  /\ provider (try_candidate model_name prompt require_content st).2
     = (generate_content model_name prompt (provider st)).2.
Proof.
  unfold try_candidate.
  destruct (generate_content model_name prompt (provider st)) as [[text|exc] w];
    simpl; [|auto].
  destruct (json_loads _); simpl; auto.
Qed.

(** A try that succeeds has parsed a mapping, returns what the
    normaliser makes of it, and records its candidate. *)
Lemma try_candidate_success (model_name prompt : str) (require_content : bool)
    (st st' : state World) (response : ReviewResponse) :
  try_candidate model_name prompt require_content st = (Ok response, st') ->
  ACTIVE_MODEL_NAME st' = Some model_name
  /\ exists payload,
       parsed_payload model_name prompt st = Some (PDict payload)
       /\ normalize_response repr_container (PDict payload) require_content
          = Ok response.
Proof.
  unfold try_candidate, parsed_payload.
  destruct (generate_content model_name prompt (provider st)) as [[text|exc] w];
    simpl; [|discriminate].
  destruct (json_loads _) as [payload|exc]; simpl; [|discriminate].
  intros [= Hn <-]. split; [reflexivity|].
  destruct payload; try discriminate Hn. eauto.
Qed.

(** A try that does not get a value out of [json.loads] fails and
    leaves the marker as it was. *)
Lemma try_candidate_unparsed (model_name prompt : str) (require_content : bool)
    (st : state World) :
  parsed_payload model_name prompt st = None ->
  (exists exc, (try_candidate model_name prompt require_content st).1 = Raise exc)
  /\ ACTIVE_MODEL_NAME (try_candidate model_name prompt require_content st).2
     = ACTIVE_MODEL_NAME st.
Proof.
  unfold try_candidate, parsed_payload.
  destruct (generate_content model_name prompt (provider st)) as [[text|exc] w];
    simpl; [|eauto].
  destruct (json_loads _) as [payload|exc]; simpl; [discriminate|eauto].
Qed.

Lemma try_candidates_app (pre post : list str) (prompt : str)
    (require_content : bool) (last_error : option exn) (st : state World) :
  try_candidates (pre ++ post) prompt require_content last_error st
  = match try_candidates pre prompt require_content last_error st with
    | (Some response, last_error', st') => (Some response, last_error', st')
    | (None, last_error', st') =>
        try_candidates post prompt require_content last_error' st'
    end.
Proof.
  revert last_error st. induction pre as [|m pre IH]; intros last_error st; simpl.
  - reflexivity.
  - destruct (try_candidate m prompt require_content st) as [[response|exc] st'].
    + reflexivity.
    + apply IH.
Qed.

Lemma last_or_cons {A} (x : A) (l : list A) (fallback : option A) :
  match last (x :: l) with Some y => Some y | None => fallback end
  = match last l with Some y => Some y | None => Some x end.
Proof. rewrite last_cons. now destruct (last l). Qed.

(** What a pass leaves in [last_error] is the last exception it caught,
    and the state it ends in does not depend on [last_error]. *)
Lemma try_candidates_last_error (models : list str) (prompt : str)
    (require_content : bool) (last_error : option exn) (st : state World) :
  try_candidates models prompt require_content last_error st
  = ((try_candidates models prompt require_content None st).1.1,
     match last (caught_in_pass models prompt require_content st) with
     | Some exc => Some exc
     | None => last_error
     end,
     (try_candidates models prompt require_content None st).2).
Proof.
  revert last_error st. induction models as [|m models IH]; intros last_error st.
  - reflexivity.
  - change (try_candidates (m :: models) prompt require_content last_error st)
      with (match try_candidate m prompt require_content st with
            | (Ok response, st') => (Some response, last_error, st')
            | (Raise exc, st') =>
                try_candidates models prompt require_content (Some exc) st'
            end).
    change (try_candidates (m :: models) prompt require_content None st)
      with (match try_candidate m prompt require_content st with
            | (Ok response, st') => (Some response, None, st')
            | (Raise exc, st') =>
                try_candidates models prompt require_content (Some exc) st'
            end).
    change (caught_in_pass (m :: models) prompt require_content st)
      with (match try_candidate m prompt require_content st with
            | (Ok _, _) => []
            | (Raise exc, st') =>
                exc :: caught_in_pass models prompt require_content st'
            end).
    destruct (try_candidate m prompt require_content st) as [[response|exc] st'].
    + reflexivity.
    + rewrite (IH (Some exc) st'). cbn [fst snd]. now rewrite last_or_cons.
Qed.

(** A pass that returns has caught fewer exceptions than there are
    candidates; a pass that falls through has caught one for each. *)
Lemma caught_in_pass_length (models : list str) (prompt : str)
    (require_content : bool) (st : state World) :
  match (try_candidates models prompt require_content None st).1.1 with
  | Some _ =>
      (length (caught_in_pass models prompt require_content st) < length models)%nat
  | None =>
      length (caught_in_pass models prompt require_content st) = length models
  end.
Proof.
  revert st. induction models as [|m models IH]; intros st; [reflexivity|].
  simpl. destruct (try_candidate m prompt require_content st) as [[response|exc] st'].
  - simpl. lia.
  - rewrite try_candidates_last_error. cbn [fst snd]. specialize (IH st').
    destruct ((try_candidates models prompt require_content None st').1.1);
      simpl; lia.
Qed.

(** A pass leaves the rate-limit log alone. *)
Lemma try_candidates_frame (models : list str) (prompt : str)
    (require_content : bool) (last_error : option exn) (st : state World) :
  request_log (try_candidates models prompt require_content last_error st).2
  = request_log st.
Proof.
  revert last_error st. induction models as [|m models IH]; intros last_error st;
    [reflexivity|].
  simpl. pose proof (try_candidate_frame m prompt require_content st) as [Hlog _].
  destruct (try_candidate m prompt require_content st) as [[response|exc] st'].
  - exact Hlog.
  - rewrite IH. exact Hlog.
Qed.

(** A pass that returns a response ends with the try that produced it. *)
Lemma try_candidates_returns (models : list str) (prompt : str)
    (require_content : bool) (last_error last_error' : option exn)
    (st st' : state World) (response : ReviewResponse) :
  try_candidates models prompt require_content last_error st
  = (Some response, last_error', st') ->
  exists model_name st1,
    In model_name models
    /\ try_candidate model_name prompt require_content st1 = (Ok response, st').
Proof.
  revert last_error st. induction models as [|m models IH]; intros last_error st;
    [discriminate|].
  simpl. destruct (try_candidate m prompt require_content st) as [[r|exc] st1] eqn:Htry.
  - intros [= -> _ ->]. exists m, st. auto.
  - intros H. destruct (IH _ _ H) as (m' & s1 & Hin & Hok). exists m', s1. auto.
Qed.

Lemma attempts_from_unfold (candidates : list str) (remaining : nat) (prompt : str)
    (require_content : bool) (last_error : option exn) (st : state World) :
  attempts_from candidates remaining prompt require_content last_error st
  = match try_candidates candidates prompt require_content last_error st with
    | (Some response, _, st') => (Returns response, st')
    | (None, last_error', st') =>
        match remaining with
        | O => (HTTPError {| status_code := 500;
                             detail := terminal_detail last_error' |}, st')
        | S remaining' =>
            attempts_from candidates remaining' (prompt ++ RETRY_SUFFIX)
              require_content last_error' st'
        end
    end.
Proof. destruct remaining; reflexivity. Qed.

Lemma caught_from_unfold (candidates : list str) (remaining : nat) (prompt : str)
    (require_content : bool) (st : state World) :
  caught_from candidates remaining prompt require_content st
  = caught_in_pass candidates prompt require_content st ++
    match try_candidates candidates prompt require_content None st with
    | (Some _, _, _) => []
    | (None, _, st') =>
        match remaining with
        | O => []
        | S remaining' =>
            caught_from candidates remaining' (prompt ++ RETRY_SUFFIX)
              require_content st'
        end
    end.
Proof. destruct remaining; reflexivity. Qed.

(** The whole call leaves the rate-limit log alone. *)
Lemma attempts_from_frame (candidates : list str) (remaining : nat) (prompt : str)
    (require_content : bool) (last_error : option exn) (st : state World) :
  request_log
    (attempts_from candidates remaining prompt require_content last_error st).2
  = request_log st.
Proof.
  revert prompt last_error st.
  induction remaining as [|k IH]; intros prompt last_error st;
    rewrite attempts_from_unfold;
    pose proof (try_candidates_frame candidates prompt require_content last_error st) as Hf;
    destruct (try_candidates candidates prompt require_content last_error st)
      as [[[response|] last_error'] st']; simpl in *; auto.
  now rewrite IH.
Qed.

(** A call that returns a response ends with the try that produced it. *)
Lemma attempts_from_returns (candidates : list str) (remaining : nat) (prompt : str)
    (require_content : bool) (last_error : option exn) (st st' : state World)
    (response : ReviewResponse) :
  attempts_from candidates remaining prompt require_content last_error st
  = (Returns response, st') ->
  exists model_name prompt' st1,
    In model_name candidates
    /\ try_candidate model_name prompt' require_content st1 = (Ok response, st').
Proof.
  revert prompt last_error st.
  induction remaining as [|k IH]; intros prompt last_error st;
    rewrite attempts_from_unfold;
    destruct (try_candidates candidates prompt require_content last_error st)
      as [[[r|] last_error'] st1] eqn:Hpass.
  - intros [= -> ->]. apply try_candidates_returns in Hpass as (m & s & Hin & Hok).
    eauto.
  - discriminate.
  - intros [= -> ->]. apply try_candidates_returns in Hpass as (m & s & Hin & Hok).
    eauto.
  - apply IH.
Qed.

Lemma last_or_app {A} (l1 l2 : list A) (fallback : option A) :
  match last (l1 ++ l2) with Some y => Some y | None => fallback end
  = match last l2 with
    | Some y => Some y
    | None => match last l1 with Some y => Some y | None => fallback end
    end.
Proof.
  destruct l2 as [|x l2 _] using rev_ind.
  - now rewrite app_nil_r.
  - rewrite app_assoc, !last_snoc. reflexivity.
Qed.

(** The call ends in the terminal error exactly when every try of every
    attempt was caught, and the error then speaks for the last
    exception caught. *)
Lemma attempts_from_exhausted (candidates : list str) (remaining : nat)
    (prompt : str) (require_content : bool) (last_error : option exn)
    (st : state World) :
  let caught := caught_from candidates remaining prompt require_content st in
  let run := attempts_from candidates remaining prompt require_content last_error st in
  ((exists e, run.1 = HTTPError e)
   <-> length caught = (S remaining * length candidates)%nat)
  /\ (length caught = (S remaining * length candidates)%nat ->
      run.1 = HTTPError
                {| status_code := 500;
                   detail := terminal_detail
                     match last caught with Some exc => Some exc | None => last_error end |}).
Proof.
  revert prompt last_error st.
  induction remaining as [|k IH]; intros prompt last_error st; cbn zeta;
    rewrite attempts_from_unfold, caught_from_unfold;
    rewrite (try_candidates_last_error candidates prompt require_content last_error st);
    pose proof (caught_in_pass_length candidates prompt require_content st) as Hlen;
    destruct (try_candidates candidates prompt require_content None st)
      as [[[r|] le0] st'] eqn:Hpass; cbn [fst snd] in *.
  - rewrite app_nil_r. split; [split|]; [intros [e He]; discriminate | lia | lia].
  - rewrite app_nil_r. split; [split|]; [lia | eauto | reflexivity].
  - rewrite app_nil_r. split; [split|]; [intros [e He]; discriminate | lia | lia].
  - rewrite length_app, Hlen.
    specialize (IH (prompt ++ RETRY_SUFFIX)
                  (match last (caught_in_pass candidates prompt require_content st) with
                   | Some exc => Some exc
                   | None => last_error
                   end) st').
    cbn zeta in IH. destruct IH as [IHiff IHdetail].
    split; [split|].
    + intros H. apply IHiff in H. lia.
    + intros H. apply IHiff. lia.
    + intros H. rewrite IHdetail by lia. now rewrite last_or_app.
Qed.

(** C1 (as amended). At any attempt, when the candidates before one have
    failed and the try of that one succeeds, the call returns its
    normalised response at once: the state is the one that try left, the
    marker names that candidate, and the provider has seen no call after
    that candidate's. A try that gets no value out of [json.loads] fails
    and leaves the marker as it was. So when the first candidate's text
    does not parse and the second candidate's text parses and
    normalises, the call returns the second candidate's response and
    the marker names the second candidate. *)
Theorem first_success_wins (pre post : list str) (model_name prompt : str)
    (require_content : bool) (remaining : nat) (last_error last_error1 : option exn)
    (st st1 st2 : state World) (response : ReviewResponse) :
  try_candidates pre prompt require_content last_error st = (None, last_error1, st1) ->
  try_candidate model_name prompt require_content st1 = (Ok response, st2) ->
  attempts_from (pre ++ model_name :: post) remaining prompt require_content
    last_error st = (Returns response, st2)
  /\ ACTIVE_MODEL_NAME st2 = Some model_name
  /\ provider st2 = (generate_content model_name prompt (provider st1)).2
  /\ (forall m p rc s,
        parsed_payload m p s = None ->
        (exists exc, (try_candidate m p rc s).1 = Raise exc)
        /\ ACTIVE_MODEL_NAME (try_candidate m p rc s).2 = ACTIVE_MODEL_NAME s)
  /\ (forall first second rest text1 w1 text2 w2 payload reply retries s,
        generate_content first prompt (provider s) = (Ok text1, w1) ->
        parsed_payload first prompt s = None ->
        generate_content second prompt w1 = (Ok text2, w2) ->
        json_loads (extract_json (default [] text2)) = Ok payload ->
        normalize_response repr_container payload require_content = Ok reply ->
        call_gemini_with_retry (first :: second :: rest) prompt retries
          require_content s
        = (Returns reply,
           {| request_log := request_log s;
              ACTIVE_MODEL_NAME := Some second;
              provider := w2 |})).
Proof.
  intros Hpre Hok.
  split; [|split; [|split; [|split]]].
  - rewrite attempts_from_unfold, try_candidates_app, Hpre. simpl.
    now rewrite Hok.
  - now apply try_candidate_success in Hok as [Hm _].
  - pose proof (try_candidate_frame model_name prompt require_content st1) as [_ Hw].
    now rewrite Hok in Hw.
  - intros m p rc s. apply try_candidate_unparsed.
  - intros first second rest text1 w1 text2 w2 payload reply retries s
      Hg1 Hp1 Hg2 Hj2 Hn2.
    unfold call_gemini_with_retry. rewrite attempts_from_unfold. simpl.
    unfold parsed_payload in Hp1. rewrite Hg1 in Hp1.
    unfold try_candidate at 1. rewrite Hg1.
    destruct (json_loads (extract_json (default [] text1))) as [v|exc];
      [discriminate|].
    unfold try_candidate. simpl. rewrite Hg2, Hj2, Hn2. reflexivity.
Qed.

(** C2 (as amended). When every try of every attempt has been caught,
    the call raises the terminal error with status 500, and its detail
    names the missing model exactly when the last exception caught was
    an availability error, and the unparsed output otherwise. With at
    least one candidate and nothing but availability errors caught, the
    detail therefore names the missing model. The call raises only in
    that case. *)
Theorem terminal_error_follows_last_failure (candidates : list str) (prompt : str)
    (retries : nat) (require_content : bool) (st : state World) :
  let caught := caught_from candidates retries prompt require_content st in
  let run := call_gemini_with_retry candidates prompt retries require_content st in
  length caught = (S retries * length candidates)%nat ->
  run.1 = HTTPError
            {| status_code := 500;
               detail := match last caught with
                         | Some exc =>
                             if unavailable exc then NO_MODEL_DETAIL
                             else UNPARSED_DETAIL
                         | None => UNPARSED_DETAIL
                         end |}
  /\ NO_MODEL_DETAIL <> UNPARSED_DETAIL
  /\ (forall e, run.1 = HTTPError e ->
      detail e = NO_MODEL_DETAIL
      <-> exists exc, last caught = Some exc /\ unavailable exc = true)
  /\ (candidates <> [] ->
      List.Forall (fun exc => unavailable exc = true) caught ->
      run.1 = HTTPError {| status_code := 500; detail := NO_MODEL_DETAIL |})
  /\ ((exists e, run.1 = HTTPError e)
      <-> length caught = (S retries * length candidates)%nat).
Proof.
  intros caught run Hall.
  destruct (attempts_from_exhausted candidates retries prompt require_content None st)
    as [Hiff Hdetail].
  fold caught in Hiff, Hdetail.
  assert (Hrun : run.1 = HTTPError
            {| status_code := 500;
               detail := match last caught with
                         | Some exc =>
                             if unavailable exc then NO_MODEL_DETAIL
                             else UNPARSED_DETAIL
                         | None => UNPARSED_DETAIL
                         end |}).
  { unfold run, call_gemini_with_retry. rewrite (Hdetail Hall).
    now destruct (last caught). }
  split; [exact Hrun|]. split; [discriminate|]. split; [|split; [|exact Hiff]].
  { intros e He. rewrite Hrun in He. injection He as <-. simpl.
    destruct (last caught) as [exc|].
    - destruct (unavailable exc) eqn:Hu.
      + split; eauto.
      + split; [discriminate|]. intros (exc' & [= <-] & Hu'). congruence.
    - split; [discriminate|]. intros (exc' & Hnone & _). discriminate. }
  intros Hne Hav. rewrite Hrun.
  destruct (last caught) as [exc|] eqn:Hlast.
  - apply last_Some in Hlast as [l' Hl']. rewrite Hl' in Hav.
    apply List.Forall_app in Hav as [_ Hexc]. inversion Hexc as [|? ? Hu _]; subst.
    now rewrite Hu.
  - apply last_None in Hlast. rewrite Hlast in Hall. simpl in Hall.
    destruct candidates; [contradiction | discriminate].
Qed.

End InvokerFacts.

Lemma first_success_wins_witness :
  call_gemini_with_retry repr_elided (scripted script_second_parses)
    sample_json_loads [MODEL_A; MODEL_B] (lit "Review this.") 2 true sample_state
  = (Returns {| overview := lit "Solid resume.";
                match_level := lit "High";
                sections :=
                  map (fun key => (key, {| strengths := []; weaknesses := [];
                                           rewrites := []; keywords := [] |}))
                    [lit "profile_summary"; lit "experience"; lit "projects";
                     lit "skills"; lit "education"];
                top_fixes := [lit "Add metrics"];
                jd_keywords := []; insertion_guidance := [];
                missing_info := []; resume_outline := [] |},
     {| request_log := ∅;
        ACTIVE_MODEL_NAME := Some MODEL_B;
        provider := [(MODEL_A, lit "Review this."); (MODEL_B, lit "Review this.")] |}).
Proof.
  apply (first_success_wins repr_elided (list (str * str))
           (scripted script_second_parses) sample_json_loads
           [MODEL_A] [] MODEL_B (lit "Review this.") true 2 None
           (Some (JSONDecodeError (lit "Expecting value: line 1 column 1 (char 0)")))
           sample_state
           {| request_log := ∅; ACTIVE_MODEL_NAME := None;
              provider := [(MODEL_A, lit "Review this.")] |});
    reflexivity.
Defined.

(** C1, as first stated, fails where the candidate's text parses and
    the normaliser then rejects it: the only candidate answers with an
    empty object on each of the three attempts, no response is ever
    accepted, and the marker names that candidate all the same. *)
Lemma rejected_candidate_is_recorded :
  let run :=
    call_gemini_with_retry repr_elided (scripted script_empty_object)
      sample_json_loads [MODEL_A] (lit "Review this.") 2 true sample_state in
  normalize_response repr_elided (PDict []) true = Raise (ValueError MISSING_FIELDS)
  /\ run.1 = HTTPError {| status_code := 500; detail := UNPARSED_DETAIL |}
  /\ ACTIVE_MODEL_NAME sample_state = None
  /\ ACTIVE_MODEL_NAME run.2 = Some MODEL_A.
Proof. repeat split; vm_compute; reflexivity. Qed.

Lemma terminal_error_follows_last_failure_witness :
  (call_gemini_with_retry repr_elided (scripted script_all_missing)
     sample_json_loads [MODEL_A; MODEL_B] (lit "Review this.") 2 true sample_state).1
  = HTTPError {| status_code := 500; detail := NO_MODEL_DETAIL |}.
Proof.
  refine (proj1 (terminal_error_follows_last_failure repr_elided (list (str * str))
           (scripted script_all_missing) sample_json_loads
           [MODEL_A; MODEL_B] (lit "Review this.") 2 true sample_state _)).
  reflexivity.
Defined.

(** C2, as first stated, fails when an earlier failure was a parse
    failure and the last one an availability error: the first candidate
    answers with prose, the second does not exist, and the terminal
    error names the missing model. *)
Lemma missing_model_blamed_after_parse_failure :
  let run :=
    call_gemini_with_retry repr_elided (scripted script_talk_then_missing)
      sample_json_loads [MODEL_A; MODEL_B] (lit "Review this.") 2 true sample_state in
  let caught :=
    caught_from repr_elided (scripted script_talk_then_missing)
      sample_json_loads [MODEL_A; MODEL_B] 2 (lit "Review this.") true sample_state in
  run.1 = HTTPError {| status_code := 500; detail := NO_MODEL_DETAIL |}
  /\ hd_error caught
     = Some (JSONDecodeError (lit "Expecting value: line 1 column 1 (char 0)"))
  /\ is_unavailable (lit "Expecting value: line 1 column 1 (char 0)") = false
  /\ ~ List.Forall (fun exc => unavailable exc = true) caught.
Proof.
  repeat split; try (vm_compute; reflexivity).
  intros H. vm_compute in H. inversion H as [|? ? Hfirst _]. discriminate Hfirst.
Qed.

(** ** Request handler *)

Section HandlerFacts.

Variable repr_container : pyval -> str.
Variable World : Type.
Variable generate_content : str -> str -> World -> result (option str) * World.
Variable json_loads : str -> result pyval.
Variable MODEL_CANDIDATES : list str.

Local Abbreviation handler :=
  (review_resume repr_container generate_content json_loads MODEL_CANDIDATES).

(** Whatever the request, the handler leaves in the log what the rate
    limiter put there. *)
Lemma review_resume_log (data : ReviewRequest) (client : option str) (now : Q)
    (st : state World) :
  request_log (handler data client now st).2
  = (enforce_rate_limit (default (lit "unknown") client) now (request_log st)).2.
Proof.
  unfold review_resume.
  destruct (enforce_rate_limit _ now (request_log st)) as [[throttled|] log'];
    [reflexivity|].
  destruct (negb (truthy (strip (resume data))) && negb (truthy (strip (role_title data))));
    [reflexivity|].
  destruct (negb (truthy (strip (resume data))));
    unfold call_gemini_with_retry; now rewrite attempts_from_frame.
Qed.

(** C9. An admitted request whose resume and role title are both empty
    after trimming, whatever its job description, is answered with the
    400 error by [/review] and by [/tailor]; the outcome and the state
    are the same for every provider, which is never called. *)
Theorem empty_request_is_rejected (data : ReviewRequest) (client : option str)
    (now : Q) (st : state World) (log' : gmap str (list Q)) :
  enforce_rate_limit (default (lit "unknown") client) now (request_log st)
  = (None, log') ->
  strip (resume data) = [] -> strip (role_title data) = [] ->
  status_code BAD_REQUEST = 400%Z
  /\ (forall provider_call,
       review_resume repr_container provider_call json_loads MODEL_CANDIDATES
         data client now st
       = (HTTPError BAD_REQUEST, set_request_log log' st)
       /\ tailor_alias repr_container provider_call json_loads MODEL_CANDIDATES
            data client now st
          = (HTTPError BAD_REQUEST, set_request_log log' st))
  /\ provider (handler data client now st).2 = provider st.
Proof.
  intros Hadmit Hresume Hrole.
  assert (Hany : forall provider_call,
    review_resume repr_container provider_call json_loads MODEL_CANDIDATES
      data client now st
    = (HTTPError BAD_REQUEST, set_request_log log' st)).
  { intros provider_call. unfold review_resume.
    rewrite Hadmit, Hresume, Hrole. reflexivity. }
  split; [reflexivity|]. split.
  - intros provider_call. split; [|unfold tailor_alias]; apply Hany.
  - now rewrite Hany.
Qed.

(** C10. The rate limiter runs first: an admitted request whose resume
    and role title are both empty is answered with the 400 error, and
    the log it leaves behind is the one the rate limiter made, with the
    reading of this call at the end of the client's queue. The same log
    is left for every admitted request, whatever it holds. *)
Theorem rate_limit_precedes_validation (data : ReviewRequest) (client : option str)
    (now : Q) (st : state World) (log' : gmap str (list Q)) :
  let client_ip := default (lit "unknown") client in
  enforce_rate_limit client_ip now (request_log st) = (None, log') ->
  strip (resume data) = [] -> strip (role_title data) = [] ->
  (handler data client now st).1 = HTTPError BAD_REQUEST
  /\ request_log (handler data client now st).2 = log'
  /\ queue_of client_ip log'
     = prune now (queue_of client_ip (request_log st)) ++ [now]
  /\ (forall any : ReviewRequest,
       request_log (handler any client now st).2 = log').
Proof.
  intros client_ip Hadmit Hresume Hrole.
  split; [|split; [|split]].
  - unfold review_resume. fold client_ip. rewrite Hadmit, Hresume, Hrole.
    reflexivity.
  - rewrite review_resume_log. fold client_ip. now rewrite Hadmit.
  - now apply enforce_records.
  - intros any. rewrite review_resume_log. fold client_ip. now rewrite Hadmit.
Qed.


End HandlerFacts.

Lemma empty_request_is_rejected_witness :
  review_resume repr_elided (scripted script_second_parses) sample_json_loads
    [MODEL_A; MODEL_B] EMPTY_REQUEST CLIENT 5 sample_state
  = (HTTPError BAD_REQUEST,
     {| request_log := {[ lit "203.0.113.7" := [5%Q] ]};
        ACTIVE_MODEL_NAME := None;
        provider := [] |}).
Proof.
  refine (proj1 (proj1 (proj2 (empty_request_is_rejected repr_elided (list (str * str))
            (scripted script_second_parses) sample_json_loads [MODEL_A; MODEL_B]
            EMPTY_REQUEST CLIENT 5 sample_state
            {[ lit "203.0.113.7" := [5%Q] ]} _ _ _))
            (scripted script_second_parses)));
    reflexivity.
Defined.

Lemma rate_limit_precedes_validation_witness :
  (review_resume repr_elided (scripted script_second_parses) sample_json_loads
     [MODEL_A; MODEL_B] EMPTY_REQUEST CLIENT 5 sample_state).1
  = HTTPError BAD_REQUEST
  /\ queue_of (lit "203.0.113.7")
       (request_log
          (review_resume repr_elided (scripted script_second_parses)
             sample_json_loads [MODEL_A; MODEL_B] EMPTY_REQUEST CLIENT 5
             sample_state).2)
     = [5%Q].
Proof.
  destruct (rate_limit_precedes_validation repr_elided (list (str * str))
              (scripted script_second_parses) sample_json_loads [MODEL_A; MODEL_B]
              EMPTY_REQUEST CLIENT 5 sample_state
              {[ lit "203.0.113.7" := [5%Q] ]}
              eq_refl eq_refl eq_refl) as (H400 & Hlog & Hqueue & _).
  split; [exact H400|]. rewrite Hlog. exact Hqueue.
Defined.



(** * Further properties *)

(** ** Output extractor *)

Lemma upto_last_closed (c : N) (b r : str) :
  ~ In c r -> upto_last c (b ++ c :: r) = Some (b ++ [c]).
Proof.
  intros Hr. induction b as [|x b IH]; simpl.
  - apply upto_last_none in Hr. rewrite Hr. now rewrite N.eqb_refl.
  - now rewrite IH.
Qed.

Lemma first_brace_span_found (a b r : str) :
  ~ In LBRACE a -> ~ In RBRACE r ->
  first_brace_span (a ++ (LBRACE :: b ++ [RBRACE]) ++ r)
  = Some (LBRACE :: b ++ [RBRACE]).
Proof.
  intros Ha Hr. induction a as [|x a IH].
  - cbn [app first_brace_span]. rewrite N.eqb_refl.
    rewrite <- app_assoc. cbn [app]. now rewrite upto_last_closed.
  - cbn [app first_brace_span].
    destruct (N.eqb_spec x LBRACE) as [->|_].
    + exfalso. apply Ha. now left.
    + apply IH. intros H. apply Ha. now right.
Qed.

Lemma extract_json_bare_object (body : str) :
  extract_json (LBRACE :: body ++ [RBRACE]) = LBRACE :: body ++ [RBRACE].
Proof.
  unfold extract_json.
  assert (Hstrip : strip (LBRACE :: body ++ [RBRACE]) = LBRACE :: body ++ [RBRACE])
    by (apply strip_by_clean; now apply clean_ends_shape).
  rewrite Hstrip.
  assert (Hfence : strip_fences (LBRACE :: body ++ [RBRACE]) = LBRACE :: body ++ [RBRACE])
    by reflexivity.
  rewrite Hfence, re_search_brace_span. now rewrite first_brace_span_object.
Qed.

(** X1. What [extract_json] returns: the fence-stripped text itself
    when that holds no opening brace followed by a closing brace, and
    otherwise exactly its part from the first opening brace to the last
    closing brace, so that text before and after is dropped and several
    objects in one reply come out as one span. *)
Theorem extract_json_span (text : str) :
  (no_brace_span (strip_fences (strip text))
   /\ extract_json text = strip_fences (strip text))
  \/ (exists a b r,
        strip_fences (strip text) = a ++ extract_json text ++ r
        /\ extract_json text = LBRACE :: b ++ [RBRACE]
        /\ ~ In LBRACE a /\ ~ In RBRACE r).
Proof.
  unfold extract_json. rewrite re_search_brace_span.
  destruct (first_brace_span (strip_fences (strip text))) as [span|] eqn:Hs.
  - right. apply first_brace_span_greedy in Hs as (a & b & r & H1 & H2 & H3 & H4).
    exists a, b, r. auto.
  - left. split; [|reflexivity]. now apply first_brace_span_none.
Qed.

Lemma lstrip_by_stops_suffix (p : N -> bool) (u t : str) (d : N) :
  p d = false ->
  exists gone kept, u = gone ++ kept /\ lstrip_by p (u ++ d :: t) = kept ++ d :: t.
Proof.
  intros Hd. induction u as [|x u (gone & kept & Hu & IH)]; simpl.
  - rewrite Hd. now exists [], [].
  - destruct (p x).
    + exists (x :: gone), kept. split; [now rewrite Hu | exact IH].
    + now exists [], (x :: u).
Qed.

Lemma rstrip_by_stops_prefix (p : N -> bool) (t u : str) (d : N) :
  p d = false ->
  exists kept gone, u = kept ++ gone /\ rstrip_by p (t ++ d :: u) = t ++ d :: kept.
Proof.
  intros Hd. unfold rstrip_by.
  replace (rev (t ++ d :: u)) with (rev u ++ d :: rev t)
    by (rewrite rev_app_distr; simpl; now rewrite <- app_assoc).
  destruct (lstrip_by_stops_suffix p (rev u) (rev t) d Hd) as (gone & kept & Hu & ->).
  exists (rev kept), (rev gone). split.
  - rewrite <- rev_app_distr, <- Hu. now rewrite rev_involutive.
  - rewrite rev_app_distr. simpl. rewrite rev_involutive. now rewrite <- app_assoc.
Qed.

(** X2. A reply that is prose around one object, with no opening brace
    in the prose before it, no closing brace in the prose after it and
    no code fence at its start, gives the object. *)
Theorem extract_json_drops_prose (before body after : str) :
  ~ In LBRACE before -> ~ In RBRACE after ->
  startswith FENCE (strip (before ++ (LBRACE :: body ++ [RBRACE]) ++ after)) = false ->
  extract_json (before ++ (LBRACE :: body ++ [RBRACE]) ++ after)
  = LBRACE :: body ++ [RBRACE].
Proof.
  intros Hb Ha Hfence. unfold extract_json, strip_fences. rewrite Hfence.
  rewrite re_search_brace_span.
  assert (Hshape : exists before' after',
    strip (before ++ (LBRACE :: body ++ [RBRACE]) ++ after)
    = before' ++ (LBRACE :: body ++ [RBRACE]) ++ after'
    /\ ~ In LBRACE before' /\ ~ In RBRACE after').
  { unfold strip, strip_by.
    destruct (lstrip_by_stops_suffix is_space before
                ((body ++ [RBRACE]) ++ after) LBRACE eq_refl)
      as (gone & before' & Hbefore & Hl).
    cbn [app]. rewrite Hl.
    replace (before' ++ LBRACE :: (body ++ [RBRACE]) ++ after)
      with ((before' ++ LBRACE :: body) ++ RBRACE :: after)
      by (rewrite <- !app_assoc; reflexivity).
    destruct (rstrip_by_stops_prefix is_space (before' ++ LBRACE :: body)
                after RBRACE eq_refl) as (after' & gone' & Hafter & ->).
    exists before', after'. split; [|split].
    - rewrite <- !app_assoc. reflexivity.
    - intros H. apply Hb. rewrite Hbefore. apply in_app_iff. now right.
    - intros H. apply Ha. rewrite Hafter. apply in_app_iff. now left. }
  destruct Hshape as (before' & after' & -> & Hb' & Ha').
  now rewrite first_brace_span_found.
Qed.

Lemma extract_json_drops_prose_witness :
  extract_json (lit "Here you go: " ++ (LBRACE :: lit " x: [1, {}] " ++ [RBRACE])
                ++ lit " Good luck! ")
  = LBRACE :: lit " x: [1, {}] " ++ [RBRACE].
Proof.
  apply (extract_json_drops_prose (lit "Here you go: ") (lit " x: [1, {}] ")
           (lit " Good luck! ")).
  - vm_compute. intuition discriminate.
  - vm_compute. intuition discriminate.
  - reflexivity.
Defined.

(** X3. Once a brace span has been found, extracting again changes
    nothing: the result starts with an opening brace, ends with a
    closing brace and is its own extraction. *)
Theorem extract_json_settles (text span : str) :
  re_search BRACE_SPAN (strip_fences (strip text)) = Some span ->
  extract_json text = span
  /\ (exists body, span = LBRACE :: body ++ [RBRACE])
  /\ extract_json (extract_json text) = extract_json text.
Proof.
  intros Hs. unfold extract_json at 1 3 4. rewrite Hs.
  rewrite re_search_brace_span in Hs.
  apply first_brace_span_greedy in Hs as (a & b & r & _ & -> & _).
  split; [reflexivity|]. split; [now exists b|]. apply extract_json_bare_object.
Qed.

Lemma extract_json_settles_witness :
  extract_json (lit "a {b} c {d} e") = lit "{b} c {d}"
  /\ (exists body, lit "{b} c {d}" = LBRACE :: body ++ [RBRACE])
  /\ extract_json (extract_json (lit "a {b} c {d} e")) = extract_json (lit "a {b} c {d} e").
Proof.
  apply (extract_json_settles (lit "a {b} c {d} e") (lit "{b} c {d}")).
  reflexivity.
Defined.

(** ** Response normaliser *)

Section NormalizerMore.

Variable repr_container : pyval -> str.

Local Abbreviation py_str := (py_str repr_container).
Local Abbreviation coerce_list := (coerce_list repr_container).
Local Abbreviation normalize_section := (normalize_section repr_container).
Local Abbreviation normalize_response := (normalize_response repr_container).

(** X4. Every string [coerce_list] returns is trimmed, whatever it is
    given; strings that come from a list are non-empty, and strings
    that come from a text hold no line boundary. No more strings come
    out than elements or lines went in. *)
Theorem coerce_list_entries (value : pyval) :
  List.Forall (fun s => trimmed s = true) (coerce_list value)
  /\ match value with
     | PList items =>
         List.Forall (fun s => s <> []) (coerce_list value)
         /\ (length (coerce_list value) <= length items)%nat
     | PStr text =>
         List.Forall
           (fun s => forallb (fun c => negb (is_linebreak c)) s = true)
           (coerce_list value)
         /\ (length (coerce_list value) <= length (splitlines text))%nat
     | _ => coerce_list value = []
     end.
Proof.
  destruct value as [| b | z | shown | text | items | entries];
    try (split; [constructor | reflexivity]).
  - rewrite coerce_list_of_str. split; [|split].
    + apply List.Forall_forall. intros s Hs.
      apply in_map_iff in Hs as (line & <- & _). apply strip_trimmed.
    + apply List.Forall_forall. intros s Hs.
      apply in_map_iff in Hs as (line & <- & Hline).
      apply filter_In in Hline as [Hline _].
      pose proof (splitlines_from_no_break text [] eq_refl) as Hall.
      rewrite List.Forall_forall in Hall. specialize (Hall line Hline).
      now apply strip_by_forallb, strip_by_forallb.
    + rewrite length_map. apply List.filter_length_le.
  - split; [|split].
    + eapply List.Forall_impl; [|apply coerce_list_of_list_shape]. now intros s [_ H].
    + eapply List.Forall_impl; [|apply coerce_list_of_list_shape]. now intros s [H _].
    + simpl. rewrite length_map. apply List.filter_length_le.
Qed.

Lemma normalize_true_has_content (payload : pyval) (response : ReviewResponse) :
  normalize_response payload true = Ok response -> has_content response.
Proof.
  intros Hok. destruct payload as [| | | | | |entries]; try discriminate Hok.
  unfold normalize_response in Hok. cbn [andb] in Hok.
  destruct (strip (py_str (dict_get (lit "overview") (PStr []) entries))) as [|c ov] eqn:Hov;
    [discriminate|].
  destruct (strip (py_str (dict_get (lit "match_level") (PStr []) entries))) as [|c' ml] eqn:Hml;
    [discriminate|].
  destruct (coerce_list (dict_get (lit "top_fixes") (PList []) entries)) as [|f tf] eqn:Htf;
    [discriminate|].
  cbn [andb orb negb truthy] in Hok. injection Hok as <-.
  assert (Hlen : (1 <= length (take 5 (f :: tf)) <= 5)%nat)
    by (rewrite length_take; cbn [length]; lia).
  unfold has_content. repeat split; try discriminate; apply Hlen.
Qed.


(** X6. [require_content] decides acceptance only. A mapping always
    normalises with the flag false; with the flag true it gives the
    same response when that response has content, and the validation
    error when it has not. *)
Theorem require_content_only_gates (payload : list (str * pyval)) :
  exists response,
    normalize_response (PDict payload) false = Ok response
    /\ ((has_content response
         /\ normalize_response (PDict payload) true = Ok response)
        \/ (~ has_content response
            /\ normalize_response (PDict payload) true
               = Raise (ValueError MISSING_FIELDS))).
Proof.
  eexists. split; [reflexivity|].
  unfold normalize_response, has_content. cbn [andb overview match_level top_fixes].
  destruct (strip (py_str (dict_get (lit "overview") (PStr []) payload))) as [|c ov];
    [right; split; [intros [H _]; now apply H | reflexivity]|].
  destruct (strip (py_str (dict_get (lit "match_level") (PStr []) payload))) as [|c' ml];
    [right; split; [intros (_ & H & _); now apply H | reflexivity]|].
  destruct (coerce_list (dict_get (lit "top_fixes") (PList []) payload)) as [|f tf].
  - right. split; [|reflexivity]. intros (_ & _ & H). rewrite take_nil in H.
    simpl in H. lia.
  - left. split; [|reflexivity].
    assert (Hlen : (1 <= length (take 5 (f :: tf)) <= 5)%nat)
      by (rewrite length_take; cbn [length]; lia).
    repeat split; try discriminate; apply Hlen.
Qed.

(** X7. What the normaliser raises never reads as an unavailable
    model: after such a failure the terminal detail is the one for
    unparsed output. *)
Theorem normalizer_failure_is_not_availability (payload : pyval) (flag : bool)
    (exc : exn) :
  normalize_response payload flag = Raise exc ->
  unavailable exc = false /\ terminal_detail (Some exc) = UNPARSED_DETAIL.
Proof.
  intros Hraise.
  assert (Hun : unavailable exc = false).
  { destruct payload; try (injection Hraise as <-; vm_compute; reflexivity).
    unfold normalize_response in Hraise.
    destruct (_ && _) in Hraise; [|discriminate].
    injection Hraise as <-. vm_compute. reflexivity. }
  split; [exact Hun|]. unfold terminal_detail. unfold unavailable in Hun.
  now rewrite Hun.
Qed.

Lemma dict_lookup_skip (key other : str) (v : pyval) (front back : list (str * pyval)) :
  other <> key ->
  dict_lookup key (front ++ (other, v) :: back) = dict_lookup key (front ++ back).
Proof.
  intros Hne. induction front as [|[k w] front IH]; simpl.
  - destruct (decide (other = key)); [contradiction | reflexivity].
  - destruct (decide (k = key)); [reflexivity | exact IH].
Qed.

(** X8. A key the normaliser does not read changes nothing: the
    payload with such an item, wherever it stands, normalises as the
    payload without it. *)
Theorem unknown_key_is_ignored (front back : list (str * pyval)) (key : str)
    (v : pyval) (flag : bool) :
  ~ In key KNOWN_KEYS ->
  normalize_response (PDict (front ++ (key, v) :: back)) flag
  = normalize_response (PDict (front ++ back)) flag.
Proof.
  intros Hkey.
  assert (Hget : forall known fallback, In known KNOWN_KEYS ->
            dict_get known fallback (front ++ (key, v) :: back)
            = dict_get known fallback (front ++ back)).
  { intros known fallback Hin. unfold dict_get. rewrite dict_lookup_skip; [reflexivity|].
    intros ->. contradiction. }
  assert (Hsec : forall k, normalize_section (front ++ (key, v) :: back) k
                           = normalize_section (front ++ back) k).
  { intros k. unfold normalize_section. rewrite dict_lookup_skip; [reflexivity|].
    intros ->. apply Hkey. unfold KNOWN_KEYS. simpl. tauto. }
  unfold normalize_response.
  rewrite !Hget by (unfold KNOWN_KEYS; simpl; tauto).
  cbn [map]. now rewrite !Hsec.
Qed.

(** X9. Without a usable section the feedback is empty: when the
    payload has no [sections] mapping, or that mapping has no mapping
    under the section's key, all four lists of the section are
    empty. *)
Theorem normalize_section_default (payload : list (str * pyval)) (key : str) :
  match dict_lookup (lit "sections") payload with
  | Some (PDict secs) =>
      match dict_lookup key secs with
      | Some (PDict _) => False
      | _ => True
      end
  | _ => True
  end ->
  normalize_section payload key = NO_FEEDBACK.
Proof.
  unfold normalize_section, dict_get.
  destruct (dict_lookup (lit "sections") payload) as [[| | | | | |secs]|];
    try reflexivity.
  destruct (dict_lookup key secs) as [[| | | | | |items]|]; try reflexivity.
  contradiction.
Qed.

End NormalizerMore.


Lemma normalizer_failure_is_not_availability_witness :
  unavailable (AttributeError (lit "'list' object has no attribute 'get'")) = false
  /\ terminal_detail
       (Some (AttributeError (lit "'list' object has no attribute 'get'")))
     = UNPARSED_DETAIL.
Proof.
  apply (normalizer_failure_is_not_availability repr_elided (PList [PInt 1]) true).
  reflexivity.
Defined.

Lemma unknown_key_is_ignored_witness :
  normalize_response repr_elided
    (PDict ([(lit "overview", PStr (lit "Fine."))]
            ++ (lit "confidence", PFloat (lit "0.9")) :: [])) false
  = normalize_response repr_elided
      (PDict ([(lit "overview", PStr (lit "Fine."))] ++ [])) false.
Proof.
  apply (unknown_key_is_ignored repr_elided). vm_compute. intuition discriminate.
Defined.

Lemma normalize_section_default_witness :
  normalize_section repr_elided
    [(lit "sections", PDict [(lit "skills", PList [])])] (lit "skills")
  = NO_FEEDBACK.
Proof.
  apply (normalize_section_default repr_elided). vm_compute. exact I.
Defined.

(** ** Rate limiter *)


Lemma enforce_queue_after (client_ip : str) (now : Q) (request_log : gmap str (list Q)) :
  let pruned := prune now (queue_of client_ip request_log) in
  queue_of client_ip (enforce_rate_limit client_ip now request_log).2
  = if (RATE_LIMIT <=? length pruned)%nat then pruned else pruned ++ [now].
Proof.
  unfold enforce_rate_limit. cbn zeta.
  destruct (RATE_LIMIT <=? _)%nat; simpl; apply queue_of_insert.
Qed.

(** X10. The queue of a client never grows beyond the limit: after any
    run of calls it holds at most thirty readings, or as many as it
    held before if that was more. *)
Theorem queue_stays_within_limit (client_ip : str) (times : list Q)
    (request_log : gmap str (list Q)) :
  (length (queue_of client_ip (serve client_ip times request_log).2)
   <= Nat.max RATE_LIMIT (length (queue_of client_ip request_log)))%nat.
Proof.
  revert request_log.
  induction times as [|now later IH]; intros request_log; simpl; [lia|].
  pose proof (enforce_queue_after client_ip now request_log) as Hq.
  pose proof (prune_length now (queue_of client_ip request_log)) as Hp.
  cbn zeta in Hq.
  destruct (enforce_rate_limit client_ip now request_log) as [r log'].
  specialize (IH log'). destruct (serve client_ip later log') as [rs log''].
  cbn [fst snd] in *. rewrite Hq in IH.
  destruct (Nat.leb_spec RATE_LIMIT (length (prune now (queue_of client_ip request_log))));
    [|rewrite length_app in IH; cbn [length] in IH]; lia.
Qed.

(** Readings inside the window of the call are never pruned. *)
Lemma prune_keeps_window (now : Q) (old recent : list Q) :
  List.Forall (in_window now) recent ->
  exists old', prune now (old ++ recent) = old' ++ recent.
Proof.
  intros Hrecent. induction old as [|t old [old' IH]].
  - exists []. destruct recent as [|t recent]; [reflexivity|].
    inversion Hrecent; subst. now apply prune_in_window.
  - simpl. destruct (Qgtb (now - t) RATE_WINDOW_SECONDS).
    + now exists old'.
    + now exists (t :: old).
Qed.

Lemma serve_admits_at_most (client_ip : str) (lo : Q) (times : list Q) :
  List.Forall (fun t => lo <= t /\ t <= lo + RATE_WINDOW_SECONDS)%Q times ->
  forall (request_log : gmap str (list Q)) (old recent : list Q),
    queue_of client_ip request_log = old ++ recent ->
    List.Forall (fun t => lo <= t)%Q recent ->
    (length recent <= RATE_LIMIT)%nat ->
    (admitted (serve client_ip times request_log).1 + length recent <= RATE_LIMIT)%nat.
Proof.
  induction 1 as [|now later [Hlo Hhi] Hlater IH];
    intros request_log old recent Hqueue Hrecent Hlen.
  - simpl. unfold admitted. simpl. lia.
  - assert (Hwin : List.Forall (in_window now) recent).
    { eapply List.Forall_impl; [|exact Hrecent]. intros t Ht.
      unfold in_window, RATE_WINDOW_SECONDS in *. lra. }
    destruct (prune_keeps_window now old recent Hwin) as [old' Hprune].
    cbn [serve]. unfold enforce_rate_limit. rewrite Hqueue, Hprune.
    destruct (Nat.leb_spec RATE_LIMIT (length (old' ++ recent))) as [Hfull|Hroom].
    + specialize (IH (<[client_ip := old' ++ recent]> request_log) old' recent
                    (queue_of_insert _ _ _) Hrecent Hlen).
      destruct (serve client_ip later _) as [rs log'']. simpl in *.
      unfold admitted in *. simpl. exact IH.
    + assert (Hlen' : (length (recent ++ [now]) <= RATE_LIMIT)%nat).
      { rewrite length_app in *. simpl. lia. }
      assert (Hrecent' : List.Forall (fun t => lo <= t)%Q (recent ++ [now])).
      { apply List.Forall_app. split; [exact Hrecent|]. now constructor. }
      specialize (IH (<[client_ip := (old' ++ recent) ++ [now]]> request_log)
                    old' (recent ++ [now])).
      rewrite queue_of_insert, <- app_assoc in IH.
      specialize (IH eq_refl Hrecent' Hlen').
      rewrite <- app_assoc.
      destruct (serve client_ip later _) as [rs log'']. simpl in *.
      unfold admitted in *. simpl. rewrite length_app in IH. simpl in IH. lia.
Qed.

(** X11. Whatever the queue held before, at most thirty of the calls a
    client makes inside one interval of sixty seconds are admitted. *)
Theorem at_most_limit_per_window (client_ip : str) (lo : Q) (times : list Q)
    (request_log : gmap str (list Q)) :
  List.Forall (fun t => lo <= t /\ t <= lo + RATE_WINDOW_SECONDS)%Q times ->
  (admitted (serve client_ip times request_log).1 <= RATE_LIMIT)%nat.
Proof.
  intros Htimes.
  pose proof (serve_admits_at_most client_ip lo times Htimes request_log
                (queue_of client_ip request_log) []) as H.
  rewrite app_nil_r in H. specialize (H eq_refl (List.Forall_nil _)).
  simpl in H. specialize (H ltac:(unfold RATE_LIMIT; lia)). lia.
Qed.

Lemma at_most_limit_per_window_witness :
  (admitted (serve (lit "203.0.113.7") (THIRTY_SECONDS ++ [31; 32]%Q) ∅).1
   <= RATE_LIMIT)%nat.
Proof.
  apply (at_most_limit_per_window (lit "203.0.113.7") 1 (THIRTY_SECONDS ++ [31; 32]%Q)).
  vm_compute.
  repeat (constructor; [split; intros H; discriminate H|]). constructor.
Defined.







(** ** Model invoker *)

Section InvokerMore.

Variable repr_container : pyval -> str.
Variable World : Type.
Variable generate_content : str -> str -> World -> result (option str) * World.
Variable json_loads : str -> result pyval.

Local Abbreviation plain := (try_candidate repr_container generate_content json_loads).
Local Abbreviation traced :=
  (try_candidate repr_container (recording generate_content) json_loads).
Local Abbreviation plain_pass :=
  (try_candidates repr_container generate_content json_loads).
Local Abbreviation traced_pass :=
  (try_candidates repr_container (recording generate_content) json_loads).
Local Abbreviation plain_run :=
  (attempts_from repr_container generate_content json_loads).
Local Abbreviation traced_run :=
  (attempts_from repr_container (recording generate_content) json_loads).

Lemma try_candidate_traced (model_name prompt : str) (require_content : bool)
    (calls : list (str * str)) (st : state World) :
  traced model_name prompt require_content (with_calls calls st)
  = ((plain model_name prompt require_content st).1,
     with_calls (calls ++ [(model_name, prompt)])
       (plain model_name prompt require_content st).2).
Proof.
  unfold try_candidate, recording, with_calls. cbn [provider fst snd].
  destruct (generate_content model_name prompt (provider st)) as [[text|exc] w];
    cbn [fst snd]; [|reflexivity].
  destruct (json_loads _); reflexivity.
Qed.

Lemma try_candidates_traced (models : list str) (prompt : str)
    (require_content : bool) (last_error : option exn)
    (calls : list (str * str)) (st : state World) :
  exists tried untried,
    models = tried ++ untried
    /\ traced_pass models prompt require_content last_error (with_calls calls st)
       = ((plain_pass models prompt require_content last_error st).1,
          with_calls (calls ++ map (fun m => (m, prompt)) tried)
            (plain_pass models prompt require_content last_error st).2)
    /\ ((plain_pass models prompt require_content last_error st).1.1 = None ->
        untried = [])
    /\ (forall response,
          (plain_pass models prompt require_content last_error st).1.1 = Some response ->
          exists m,
            last tried = Some m
            /\ ACTIVE_MODEL_NAME
                 (plain_pass models prompt require_content last_error st).2
               = Some m).
Proof.
  revert last_error calls st.
  induction models as [|m models IH]; intros last_error calls st.
  - exists [], []. split; [reflexivity|].
    split; [simpl; now rewrite app_nil_r|].
    split; [reflexivity|]. intros r Hr. discriminate Hr.
  - simpl. rewrite try_candidate_traced.
    destruct (plain m prompt require_content st) as [[response|exc] st'] eqn:Htry;
      cbn [fst snd].
    + exists [m], models. split; [reflexivity|]. split; [reflexivity|].
      split; [intros Hr; discriminate Hr|].
      intros response' _. exists m. split; [reflexivity|].
      now apply try_candidate_success in Htry as [Hm _].
    + destruct (IH (Some exc) (calls ++ [(m, prompt)]) st')
        as (tried & untried & -> & Hrun & Hnone & Hsome).
      exists (m :: tried), untried. split; [reflexivity|].
      split; [rewrite Hrun; cbn [map]; now rewrite <- app_assoc|].
      split; [exact Hnone|].
      intros response Hr. destruct (Hsome response Hr) as (m' & Hlast & Hactive).
      exists m'. split; [|exact Hactive].
      rewrite last_cons, Hlast. reflexivity.
Qed.

Lemma last_of_map {A B} (f : A -> B) (l : list A) :
  last (map f l) = option_map f (last l).
Proof.
  induction l as [|x l IH]; [reflexivity|].
  cbn [map]. rewrite !last_cons, IH. now destruct (last l).
Qed.

Lemma schedule_length (candidates : list str) (remaining : nat) (prompt : str) :
  length (schedule candidates remaining prompt)
  = (S remaining * length candidates)%nat.
Proof.
  revert prompt. induction remaining as [|k IH]; intros prompt; simpl.
  - rewrite app_nil_r, length_map. lia.
  - rewrite length_app, length_map, IH. simpl. lia.
Qed.

Lemma attempts_from_traced (candidates : list str) (remaining : nat) (prompt : str)
    (require_content : bool) (last_error : option exn)
    (calls : list (str * str)) (st : state World) :
  exists made rest,
    traced_run candidates remaining prompt require_content last_error
      (with_calls calls st)
    = ((plain_run candidates remaining prompt require_content last_error st).1,
       with_calls (calls ++ made)
         (plain_run candidates remaining prompt require_content last_error st).2)
    /\ schedule candidates remaining prompt = made ++ rest
    /\ ((exists e,
          (plain_run candidates remaining prompt require_content last_error st).1
          = HTTPError e) -> rest = [])
    /\ (forall response,
          (plain_run candidates remaining prompt require_content last_error st).1
          = Returns response ->
          exists m prompt',
            last made = Some (m, prompt')
            /\ ACTIVE_MODEL_NAME
                 (plain_run candidates remaining prompt require_content last_error st).2
               = Some m).
Proof.
  revert prompt last_error calls st.
  induction remaining as [|k IH]; intros prompt last_error calls st;
    rewrite !attempts_from_unfold;
    destruct (try_candidates_traced candidates prompt require_content last_error calls st)
      as (tried & untried & Hsplit & Hpass & Hnone & Hsome);
    rewrite Hpass;
    destruct (plain_pass candidates prompt require_content last_error st)
      as [[[response|] last_error'] st'] eqn:Hplain; cbn [fst snd] in *.
  - exists (map (fun m => (m, prompt)) tried), (map (fun m => (m, prompt)) untried).
    split; [reflexivity|]. split.
    { cbn [schedule]. now rewrite app_nil_r, Hsplit, map_app. }
    split; [intros [e He]; discriminate|].
    intros r _. destruct (Hsome response eq_refl) as (m & Hlast & Hactive).
    exists m, prompt. split; [|exact Hactive].
    now rewrite last_of_map, Hlast.
  - rewrite (Hnone eq_refl), app_nil_r in Hsplit. subst tried.
    exists (map (fun m => (m, prompt)) candidates), [].
    split; [reflexivity|]. split; [cbn [schedule]; now rewrite !app_nil_r|].
    split; [reflexivity | discriminate].
  - exists (map (fun m => (m, prompt)) tried),
      (map (fun m => (m, prompt)) untried
       ++ schedule candidates k (prompt ++ RETRY_SUFFIX)).
    split; [reflexivity|]. split.
    { cbn [schedule]. now rewrite Hsplit, map_app, <- app_assoc. }
    split; [intros [e He]; discriminate|].
    intros r _. destruct (Hsome response eq_refl) as (m & Hlast & Hactive).
    exists m, prompt. split; [|exact Hactive].
    now rewrite last_of_map, Hlast.
  - rewrite (Hnone eq_refl), app_nil_r in Hsplit. subst tried.
    destruct (IH (prompt ++ RETRY_SUFFIX) last_error'
                (calls ++ map (fun m => (m, prompt)) candidates) st')
      as (made & rest & Hrun & Hsched & Herr & Hret).
    exists (map (fun m => (m, prompt)) candidates ++ made), rest.
    rewrite Hrun, <- !app_assoc. split; [reflexivity|].
    split; [cbn [schedule]; now rewrite Hsched|].
    split; [exact Herr|].
    intros r Hr. destruct (Hret r Hr) as (m & p' & Hlast & Hactive).
    exists m, p'. split; [|exact Hactive].
    destruct made as [|x made] using rev_ind; [discriminate|].
    rewrite app_assoc, last_snoc. now rewrite last_snoc in Hlast.
Qed.

(** X13. The provider is called in the order of the schedule: the
    candidates from first to last with the caller's prompt, then again
    with the retry suffix appended once more for each further attempt.
    The calls a run makes are an initial part of that schedule, never
    more than three passes by default; all of it when the run ends in
    the terminal error; and ending with the call to the candidate the
    marker then names when the run returns a response. Keeping track
    of the calls changes neither the outcome nor the state. *)
Theorem provider_calls_follow_schedule (candidates : list str) (prompt : str)
    (retries : nat) (require_content : bool)
    (calls : list (str * str)) (st : state World) :
  let run :=
    call_gemini_with_retry repr_container generate_content json_loads
      candidates prompt retries require_content st in
  exists made rest,
    call_gemini_with_retry repr_container (recording generate_content) json_loads
      candidates prompt retries require_content (with_calls calls st)
    = (run.1, with_calls (calls ++ made) run.2)
    /\ schedule candidates retries prompt = made ++ rest
    /\ (length made <= S retries * length candidates)%nat
    /\ ((exists e, run.1 = HTTPError e) -> rest = [])
    /\ (forall response,
          run.1 = Returns response ->
          exists m prompt',
            last made = Some (m, prompt') /\ ACTIVE_MODEL_NAME run.2 = Some m).
Proof.
  cbn zeta. unfold call_gemini_with_retry.
  destruct (attempts_from_traced candidates retries prompt require_content None calls st)
    as (made & rest & Hrun & Hsched & Herr & Hret).
  exists made, rest. repeat split; auto.
  rewrite <- (schedule_length candidates retries prompt), Hsched, length_app. lia.
Qed.

(** One try sets the marker to its candidate or leaves it. *)
Lemma try_candidate_marker (model_name prompt : str) (require_content : bool)
    (st : state World) :
  ACTIVE_MODEL_NAME (plain model_name prompt require_content st).2
  = ACTIVE_MODEL_NAME st
  \/ ACTIVE_MODEL_NAME (plain model_name prompt require_content st).2
     = Some model_name.
Proof.
  unfold try_candidate.
  destruct (generate_content model_name prompt (provider st)) as [[text|exc] w];
    cbn [fst snd]; [|now left].
  destruct (json_loads _); cbn [fst snd]; [now right | now left].
Qed.

Lemma try_candidates_marker (candidates models : list str) (prompt : str)
    (require_content : bool) (last_error : option exn) (st : state World) :
  incl models candidates -> marker_ok candidates st ->
  marker_ok candidates (plain_pass models prompt require_content last_error st).2.
Proof.
  revert last_error st. induction models as [|m models IH];
    intros last_error st Hincl Hok; [exact Hok|].
  simpl.
  assert (Hm : marker_ok candidates (plain m prompt require_content st).2).
  { unfold marker_ok in *.
    destruct (try_candidate_marker m prompt require_content st) as [-> | ->];
      [exact Hok | apply Hincl; now left]. }
  destruct (plain m prompt require_content st) as [[response|exc] st'];
    cbn [fst snd] in *; [exact Hm|].
  apply IH; [|exact Hm]. intros x Hx. apply Hincl. now right.
Qed.

Lemma attempts_from_marker (candidates : list str) (remaining : nat) (prompt : str)
    (require_content : bool) (last_error : option exn) (st : state World) :
  marker_ok candidates st ->
  marker_ok candidates
    (plain_run candidates remaining prompt require_content last_error st).2.
Proof.
  revert prompt last_error st.
  induction remaining as [|k IH]; intros prompt last_error st Hok;
    rewrite attempts_from_unfold;
    pose proof (try_candidates_marker candidates candidates prompt require_content
                  last_error st (incl_refl _) Hok) as Hpass;
    destruct (plain_pass candidates prompt require_content last_error st)
      as [[[response|] last_error'] st']; cbn [fst snd] in *; auto.
Qed.

(** The call ends with a response or with one of the two terminal
    errors. *)
Lemma attempts_from_outcome (candidates : list str) (remaining : nat) (prompt : str)
    (require_content : bool) (last_error : option exn) (st : state World) :
  (exists response,
     (plain_run candidates remaining prompt require_content last_error st).1
     = Returns response)
  \/ (plain_run candidates remaining prompt require_content last_error st).1
     = HTTPError {| status_code := 500; detail := NO_MODEL_DETAIL |}
  \/ (plain_run candidates remaining prompt require_content last_error st).1
     = HTTPError {| status_code := 500; detail := UNPARSED_DETAIL |}.
Proof.
  revert prompt last_error st.
  induction remaining as [|k IH]; intros prompt last_error st;
    rewrite attempts_from_unfold;
    destruct (plain_pass candidates prompt require_content last_error st)
      as [[[response|] last_error'] st']; cbn [fst]; eauto.
  unfold terminal_detail. destruct last_error' as [exc|]; [|auto].
  destruct (is_unavailable (exn_message exc)); auto.
Qed.

End InvokerMore.

(** ** Request handler and health endpoint *)

Section HandlerMore.

Variable repr_container : pyval -> str.
Variable World : Type.
Variable generate_content : str -> str -> World -> result (option str) * World.
Variable json_loads : str -> result pyval.
Variable MODEL_CANDIDATES : list str.

Local Abbreviation handler :=
  (review_resume repr_container generate_content json_loads MODEL_CANDIDATES).

(** X14. The marker only ever names a candidate: if it is unset or
    names one of the candidates before a request, so it does after the
    request, whatever the request and however it ends. *)
Theorem marker_names_a_candidate (data : ReviewRequest) (client : option str)
    (now : Q) (st : state World) :
  marker_ok MODEL_CANDIDATES st ->
  marker_ok MODEL_CANDIDATES (handler data client now st).2.
Proof.
  intros Hok. unfold review_resume.
  destruct (enforce_rate_limit _ now (request_log st)) as [[throttled|] log'];
    [exact Hok|].
  destruct (negb (truthy (strip (resume data))) && negb (truthy (strip (role_title data))));
    [exact Hok|].
  destruct (negb (truthy (strip (resume data))));
    unfold call_gemini_with_retry; now apply attempts_from_marker.
Qed.

(** X15. [/health] with a marker that is unset or names a candidate:
    with no candidates it fails on the empty list; otherwise it reports
    the status, the whole candidate list, and a model that is one of the
    candidates, the first of them while the marker is unset. *)
Theorem health_check_reports_a_candidate (st : state World) :
  marker_ok MODEL_CANDIDATES st ->
  match MODEL_CANDIDATES with
  | [] => health_check MODEL_CANDIDATES st = None
  | first :: _ =>
      exists report,
        health_check MODEL_CANDIDATES st = Some report
        /\ status report = lit "healthy"
        /\ candidates report = MODEL_CANDIDATES
        /\ In (model report) MODEL_CANDIDATES
        /\ (ACTIVE_MODEL_NAME st = None -> model report = first)
  end.
Proof.
  unfold marker_ok, health_check. intros Hok.
  destruct MODEL_CANDIDATES as [|first others].
  - destruct (ACTIVE_MODEL_NAME st) as [active|]; [contradiction | reflexivity].
  - destruct (ACTIVE_MODEL_NAME st) as [active|].
    + destruct active as [|c active].
      * eexists. split; [reflexivity|]. cbn.
        repeat split; auto; try (intros H; discriminate H).
      * eexists. split; [reflexivity|]. cbn [status candidates model].
        repeat split; auto; try (intros H; discriminate H).
    + eexists. split; [reflexivity|]. cbn. repeat split; auto.
Qed.

(** X16. A request ends in one of five ways: a response, the 400
    error, the 429 error, or the 500 error with one of its two
    details. *)
Theorem handler_outcomes (data : ReviewRequest) (client : option str)
    (now : Q) (st : state World) :
  (exists response, (handler data client now st).1 = Returns response)
  \/ (handler data client now st).1 = HTTPError BAD_REQUEST
  \/ (handler data client now st).1 = HTTPError RATE_LIMITED
  \/ (handler data client now st).1
     = HTTPError {| status_code := 500; detail := NO_MODEL_DETAIL |}
  \/ (handler data client now st).1
     = HTTPError {| status_code := 500; detail := UNPARSED_DETAIL |}.
Proof.
  unfold review_resume, enforce_rate_limit.
  destruct (RATE_LIMIT <=? _)%nat; [cbn [fst]; auto|].
  destruct (negb (truthy (strip (resume data))) && negb (truthy (strip (role_title data))));
    [cbn [fst]; auto|].
  destruct (negb (truthy (strip (resume data))));
    unfold call_gemini_with_retry;
    match goal with
    | |- context [attempts_from ?r ?g ?j ?c ?k ?p ?rc ?le ?s] =>
        destruct (attempts_from_outcome r _ g j c k p rc le s) as [H | [H | H]]
    end; auto.
Qed.

(** X17. A throttled request is answered with the 429 error before
    anything else is looked at: whatever it holds and whatever the
    provider, no model is called, the marker stays, and the client's
    queue is pruned but gets no new reading. *)
Theorem throttled_request_is_rejected (data : ReviewRequest) (client : option str)
    (now : Q) (st : state World)
    (throttled : HTTPException) (log' : gmap str (list Q)) :
  enforce_rate_limit (default (lit "unknown") client) now (request_log st)
  = (Some throttled, log') ->
  throttled = RATE_LIMITED
  /\ status_code throttled = 429%Z
  /\ queue_of (default (lit "unknown") client) log'
     = prune now (queue_of (default (lit "unknown") client) (request_log st))
  /\ (forall provider_call,
        review_resume repr_container provider_call json_loads MODEL_CANDIDATES
          data client now st
        = (HTTPError RATE_LIMITED, set_request_log log' st)).
Proof.
  intros Hlimit.
  assert (Hshape : throttled = RATE_LIMITED
            /\ queue_of (default (lit "unknown") client) log'
               = prune now (queue_of (default (lit "unknown") client) (request_log st))).
  { unfold enforce_rate_limit in Hlimit.
    destruct (RATE_LIMIT <=? _)%nat; [|discriminate].
    injection Hlimit as <- <-. split; [reflexivity | apply queue_of_insert]. }
  destruct Hshape as [-> Hqueue].
  split; [reflexivity|]. split; [reflexivity|]. split; [exact Hqueue|].
  intros provider_call. unfold review_resume. now rewrite Hlimit.
Qed.

(** X18. A request with a resume is handled by the call of the model
    with the full-review prompt and [require_content] true, and a
    response it returns carries content: non-empty overview and match
    level and one to five top fixes. The marker then names the
    candidate that sent it. *)
Theorem full_review_has_content (data : ReviewRequest) (client : option str)
    (now : Q) (st st' : state World) (log' : gmap str (list Q))
    (response : ReviewResponse) :
  enforce_rate_limit (default (lit "unknown") client) now (request_log st)
  = (None, log') ->
  strip (resume data) <> [] ->
  handler data client now st = (Returns response, st') ->
  handler data client now st
  = call_gemini_with_retry repr_container generate_content json_loads
      MODEL_CANDIDATES
      (review_prompt (strip (role_title data)) (strip (job_description data))
         (strip (resume data)))
      2 true (set_request_log log' st)
  /\ has_content response
  /\ exists m, In m MODEL_CANDIDATES /\ ACTIVE_MODEL_NAME st' = Some m.
Proof.
  intros Hadmit Hresume Hret.
  assert (Hcall : handler data client now st
    = call_gemini_with_retry repr_container generate_content json_loads
        MODEL_CANDIDATES
        (review_prompt (strip (role_title data)) (strip (job_description data))
           (strip (resume data)))
        2 true (set_request_log log' st)).
  { unfold review_resume. rewrite Hadmit.
    destruct (strip (resume data)); [contradiction | reflexivity]. }
  split; [exact Hcall|]. rewrite Hcall in Hret.
  apply attempts_from_returns in Hret as (m & p & s1 & Hin & Hok).
  apply try_candidate_success in Hok as (Hactive & payload & _ & Hnorm).
  split; [exact (normalize_true_has_content _ _ _ Hnorm)|].
  now exists m.
Qed.

End HandlerMore.

Lemma marker_names_a_candidate_witness :
  marker_ok [MODEL_A; MODEL_B]
    (review_resume repr_elided (scripted script_second_parses) sample_json_loads
       [MODEL_A; MODEL_B] FULL_REQUEST CLIENT 5 sample_state).2.
Proof.
  apply (marker_names_a_candidate repr_elided (list (str * str))
           (scripted script_second_parses) sample_json_loads [MODEL_A; MODEL_B]
           FULL_REQUEST CLIENT 5 sample_state).
  exact I.
Defined.

Lemma health_check_reports_a_candidate_witness :
  exists report,
    health_check [MODEL_A; MODEL_B] sample_state = Some report
    /\ status report = lit "healthy"
    /\ candidates report = [MODEL_A; MODEL_B]
    /\ In (model report) [MODEL_A; MODEL_B]
    /\ (ACTIVE_MODEL_NAME sample_state = None -> model report = MODEL_A).
Proof.
  apply (health_check_reports_a_candidate (list (str * str)) [MODEL_A; MODEL_B]
           sample_state).
  exact I.
Defined.

Lemma throttled_request_is_rejected_witness :
  review_resume repr_elided (scripted script_second_parses) sample_json_loads
    [MODEL_A; MODEL_B] FULL_REQUEST CLIENT 45 BUSY_STATE
  = (HTTPError RATE_LIMITED,
     set_request_log (<[lit "203.0.113.7" := THIRTY_SECONDS]> ∅) BUSY_STATE).
Proof.
  refine (proj2 (proj2 (proj2
            (throttled_request_is_rejected repr_elided (list (str * str))
               sample_json_loads [MODEL_A; MODEL_B] FULL_REQUEST CLIENT 45 BUSY_STATE
               RATE_LIMITED (<[lit "203.0.113.7" := THIRTY_SECONDS]> ∅) _)))
            (scripted script_second_parses)).
  vm_compute. reflexivity.
Defined.

Lemma full_review_has_content_witness :
  has_content
    {| overview := lit "Solid resume.";
       match_level := lit "High";
       sections :=
         map (fun key => (key, NO_FEEDBACK))
           [lit "profile_summary"; lit "experience"; lit "projects";
            lit "skills"; lit "education"];
       top_fixes := [lit "Add metrics"];
       jd_keywords := []; insertion_guidance := [];
       missing_info := []; resume_outline := [] |}.
Proof.
  refine (proj1 (proj2
            (full_review_has_content repr_elided (list (str * str))
               (scripted script_second_parses) sample_json_loads [MODEL_A; MODEL_B]
               FULL_REQUEST CLIENT 5 sample_state _
               {[ lit "203.0.113.7" := [5%Q] ]} _ _ _ _))).
  - reflexivity.
  - discriminate.
  - vm_compute. reflexivity.
Defined.

(** ** Candidate list at start-up and catalogue endpoint *)

Lemma split_from_item (sep : N) (item cur tail : str) :
  ~ In sep item ->
  split_from sep cur (item ++ tail) = split_from sep (rev item ++ cur) tail.
Proof.
  revert cur. induction item as [|c item IH]; intros cur Hno; [reflexivity|].
  cbn [app split_from].
  destruct (N.eqb_spec c sep) as [->|_]; [exfalso; apply Hno; now left|].
  rewrite IH by (intros H; apply Hno; now right).
  cbn [rev]. now rewrite <- app_assoc.
Qed.

(** Splitting undoes joining when no item holds the separator. *)
Lemma split_on_join (sep : N) (first : str) (others : list str) :
  List.Forall (fun item => ~ In sep item) (first :: others) ->
  split_on sep (join_with sep (first :: others)) = first :: others.
Proof.
  unfold split_on. revert first.
  induction others as [|second others IH]; intros first Hall;
    inversion Hall as [|? ? Hfirst Hothers]; subst.
  - cbn [join_with]. rewrite <- (app_nil_r first) at 1.
    rewrite split_from_item by exact Hfirst. cbn [split_from].
    now rewrite app_nil_r, rev_involutive.
  - change (join_with sep (first :: second :: others))
      with (first ++ sep :: join_with sep (second :: others)).
    rewrite split_from_item by exact Hfirst. cbn [split_from].
    rewrite N.eqb_refl, app_nil_r, rev_involutive. f_equal. now apply IH.
Qed.

Lemma split_from_no_sep (sep : N) (cur s : str) :
  ~ In sep cur ->
  List.Forall (fun item => ~ In sep item) (split_from sep cur s).
Proof.
  revert cur. induction s as [|c s IH]; intros cur Hcur; cbn [split_from].
  - constructor; [|constructor]. intros H. apply Hcur. now apply in_rev.
  - destruct (N.eqb_spec c sep) as [->|Hne].
    + constructor; [intros H; apply Hcur; now apply in_rev|]. now apply IH.
    + apply IH. intros [E|H]; [now apply Hne | now apply Hcur].
Qed.

Lemma strip_by_subset (p : N -> bool) (s : str) (c : N) :
  In c (strip_by p s) -> In c s.
Proof.
  unfold strip_by, rstrip_by. intros H. apply in_rev in H.
  destruct (lstrip_by_suffix p (rev (lstrip_by p s))) as [gone Hg].
  assert (H1 : In c (rev (lstrip_by p s)))
    by (rewrite Hg; apply in_app_iff; now right).
  apply in_rev in H1.
  destruct (lstrip_by_suffix p s) as [gone' Hg'].
  rewrite Hg'. apply in_app_iff. now right.
Qed.

Lemma env_models_shape (GEMINI_MODEL : option str) :
  List.Forall (fun n => n <> [] /\ trimmed n = true /\ ~ In COMMA n)
    (ENV_MODELS GEMINI_MODEL).
Proof.
  unfold ENV_MODELS. apply List.Forall_forall. intros n Hn.
  apply in_map_iff in Hn as (item & <- & Hitem).
  apply filter_In in Hitem as [Hitem Htruthy].
  split; [now apply truthy_true|]. split; [apply strip_trimmed|].
  intros Hc. apply strip_by_subset in Hc.
  pose proof (split_from_no_sep COMMA [] (default [] GEMINI_MODEL) (fun H => H)) as Hall.
  rewrite List.Forall_forall in Hall. exact (Hall item Hitem Hc).
Qed.

(** X19. The configured names: every name read from [GEMINI_MODEL] is
    non-empty, trimmed and free of commas; an unset variable gives none;
    and names of that kind joined by commas are read back as they
    were. *)
Theorem env_models_round_trip (names : list str) :
  List.Forall (fun n => n <> [] /\ trimmed n = true /\ ~ In COMMA n) names ->
  ENV_MODELS (Some (join_with COMMA names)) = names
  /\ ENV_MODELS None = []
  /\ (forall GEMINI_MODEL,
        List.Forall (fun n => n <> [] /\ trimmed n = true /\ ~ In COMMA n)
          (ENV_MODELS GEMINI_MODEL)).
Proof.
  intros Hnames. split; [|split; [reflexivity | apply env_models_shape]].
  unfold ENV_MODELS. cbn [from_option id].
  destruct names as [|first others]; [reflexivity|].
  rewrite split_on_join
    by (eapply List.Forall_impl; [|exact Hnames]; now intros n (_ & _ & H)).
  induction Hnames as [|n names (Hne & Htrim & _) _ IH]; [reflexivity|].
  cbn [List.filter map]. rewrite (strip_of_trimmed n Htrim).
  apply truthy_true in Hne. rewrite Hne. cbn [map].
  rewrite (strip_of_trimmed n Htrim). now f_equal.
Qed.

Lemma env_models_round_trip_witness :
  ENV_MODELS (Some (join_with COMMA [lit "models/a"; lit "b-1.5"]))
  = [lit "models/a"; lit "b-1.5"].
Proof.
  refine (proj1 (env_models_round_trip [lit "models/a"; lit "b-1.5"] _)).
  repeat (constructor;
          [split; [discriminate | split; [reflexivity | vm_compute; intuition discriminate]]|]).
  constructor.
Defined.

Lemma fetch_supports_generation (models : list Model) (n : str) :
  In n (fetch_available_models (Ok models)) ->
  exists entry,
    In entry models /\ name entry = n
    /\ In (lit "generateContent") (supported_generation_methods entry).
Proof.
  unfold fetch_available_models. intros H.
  apply in_map_iff in H as (entry & <- & Hentry).
  apply filter_In in Hentry as [Hin Hsup]. exists entry. repeat split; auto.
  apply existsb_exists in Hsup as (method & Hmethod & Heq).
  apply bool_decide_eq_true in Heq. now subst.
Qed.

(** X20. The candidate list fixed at start-up is never empty. The
    configured names win whatever the provider offers; without them the
    provider's catalogue is used, which holds only models that support
    [generateContent]; and when the provider fails or offers none, the
    built-in defaults are used. [/models] falls back on the candidate
    list in the same way, so with the start-up candidates its answer is
    never empty either. *)
Theorem candidates_are_never_empty (GEMINI_MODEL : option str)
    (listing later_listing : result (list Model)) :
  load_model_candidates GEMINI_MODEL listing <> []
  /\ list_models (load_model_candidates GEMINI_MODEL listing) later_listing <> []
  /\ (forall candidates exc, list_models candidates (Raise exc) = candidates)
  /\ (ENV_MODELS GEMINI_MODEL <> [] ->
      load_model_candidates GEMINI_MODEL listing = ENV_MODELS GEMINI_MODEL)
  /\ (ENV_MODELS GEMINI_MODEL = [] ->
      load_model_candidates GEMINI_MODEL listing
      = match fetch_available_models listing with
        | [] => DEFAULT_MODELS
        | fetched => fetched
        end)
  /\ (forall exc, load_model_candidates None (Raise exc) = DEFAULT_MODELS)
  /\ (forall models n,
        In n (fetch_available_models (Ok models)) ->
        exists entry,
          In entry models /\ name entry = n
          /\ In (lit "generateContent") (supported_generation_methods entry)).
Proof.
  assert (Hload : load_model_candidates GEMINI_MODEL listing <> []).
  { unfold load_model_candidates.
    destruct (ENV_MODELS GEMINI_MODEL); [|discriminate].
    destruct (fetch_available_models listing); discriminate. }
  split; [exact Hload|]. split; [|split; [reflexivity|]].
  { unfold list_models.
    destruct (fetch_available_models later_listing); [exact Hload | discriminate]. }
  unfold load_model_candidates.
  split; [|split; [|split]].
  - intros H. destruct (ENV_MODELS GEMINI_MODEL); [contradiction | reflexivity].
  - intros ->. cbn [truthy]. now destruct (fetch_available_models listing).
  - reflexivity.
  - apply fetch_supports_generation.
Qed.
